(** * serial_monitor.py: log classification, retention, filtering and CSV export

    A shallow embedding of the log pipeline of [serial_monitor.py]
    ([LogEntry], [LogDisplayWidget], [MainWindow.update_statistics],
    [MainWindow.trim_logs], [ExportDialog.format_entry]) and the properties
    its specification states about it.

    Python values are modelled as follows.
    - [str]: a list of Unicode code points ([N]);
    - [None]-able attributes ([level], [message]): [option];
    - [dict] with string keys: stdpp's [gmap];
    - [list]: [list], slices written out with [drop]/[take];
    - [int]: [Z]; the true division [/] of two ints: a rational ([Q]). *)

From Stdlib Require Import ZArith NArith QArith List String Ascii DecimalString Lia.
From stdpp Require Import base option list gmap.

Local Open Scope N_scope.

(** ** Python strings *)

Abbreviation char := N (only parsing).
Abbreviation str := (list N) (only parsing).

(** A string literal of the source, as code points. *)
Definition py (s : string) : str := map N_of_ascii (list_ascii_of_string s).

(** [str.isspace] on one character, which is also the class [\s] of [re] on
    [str] patterns (both are CPython's [Py_UNICODE_ISSPACE]). *)
Definition is_space (c : char) : bool :=
  ((9 <=? c) && (c <=? 13)) || ((28 <=? c) && (c <=? 32))
  || (c =? 133) || (c =? 160) || (c =? 5760)
  || ((8192 <=? c) && (c <=? 8202))
  || (c =? 8232) || (c =? 8233) || (c =? 8239) || (c =? 8287) || (c =? 12288).

(** The line feed, the one character [.] does not match. *)
Definition LF : char := 10.
(** The class [.] of [re] (no [DOTALL] flag). *)
Definition is_dot (c : char) : bool := negb (c =? LF).
(** The class [[0-4]]. *)
Definition is_0_4 (c : char) : bool := (48 <=? c) && (c <=? 52).

Fixpoint take_while {A} (p : A -> bool) (l : list A) : list A :=
  match l with
  | [] => []
  | x :: l' => if p x then x :: take_while p l' else []
  end.

Fixpoint drop_while {A} (p : A -> bool) (l : list A) : list A :=
  match l with
  | [] => []
  | x :: l' => if p x then drop_while p l' else l
  end.

(** [s.lstrip()], [s.rstrip()], [s.strip()]. *)
Definition lstrip (s : str) : str := drop_while is_space s.
Definition rstrip (s : str) : str := reverse (drop_while is_space (reverse s)).
Definition strip (s : str) : str := rstrip (lstrip s).

(** ** The fragment of [re] the source uses

    Both patterns of [_parse_log] are sequences of the anchor [^], escaped
    literals, one character class and greedy stars of a character class,
    some of them inside a capture group.  [re_items] is a backtracking
    matcher for such sequences: a star first takes the longest run and gives
    characters back one at a time until the rest of the pattern matches. *)

Inductive atom :=
| Bol                        (* ^ *)
| Lit (c : char)             (* an escaped or plain literal *)
| Cls (p : char -> bool)     (* a character class *)
| Star (p : char -> bool).   (* a greedy star of a character class *)

(** An atom and whether it stands in a capture group. *)
Definition item : Type := atom * bool.

Definition capture (g : bool) (text : str) (groups : list str) : list str :=
  if g then text :: groups else groups.

Fixpoint re_items (its : list item) (pos : nat) (s : str) : option (list str) :=
  match its with
  | [] => Some []
  | (a, g) :: its' =>
    match a with
    | Bol => if Nat.eqb pos 0 then capture g [] <$> re_items its' pos s else None
    | Lit c =>
      match s with
      | x :: s' => if x =? c then capture g [x] <$> re_items its' (S pos) s' else None
      | [] => None
      end
    | Cls p =>
      match s with
      | x :: s' => if p x then capture g [x] <$> re_items its' (S pos) s' else None
      | [] => None
      end
    | Star p =>
      (fix give_back (k : nat) : option (list str) :=
         match re_items its' (pos + k)%nat (drop k s) with
         | Some groups => Some (capture g (take k s) groups)
         | None => match k with
                   | O => None
                   | S k' => give_back k'
                   end
         end) (length (take_while p s))
    end
  end.

(** [re.match(pattern, s)]: the match starts at position 0; the result is
    the list of the groups, [group(1)] first. *)
Definition re_match (pattern : list item) (s : str) : option (list str) :=
  re_items pattern 0%nat s.

(** The first pattern of [_parse_log], the severity marker: anchor, [\[]
    (code point 91), group [[0-4]], [\]] (93), the star of [\s], and the
    star of [.] as group 2. *)
Definition level_pattern : list item :=
  [ (Bol, false); (Lit 91, false); (Cls is_0_4, true); (Lit 93, false);
    (Star is_space, false); (Star is_dot, true) ].

(** Its second pattern, the WiFi Manager marker: anchor, the literals
    [\*] (42), [w] (119), [m] (109), the star of [\s], and the star of [.]
    as group 1. *)
Definition wm_pattern : list item :=
  [ (Bol, false); (Lit 42, false); (Lit 119, false); (Lit 109, false);
    (Star is_space, false); (Star is_dot, true) ].

(** ** Config.LOG_LEVELS *)

Record LevelInfo := mkLevelInfo { name : str; color : str; priority : Z }.

Definition LOG_LEVELS : gmap str LevelInfo :=
  <[py "0" := mkLevelInfo (py "ERROR") (py "#FF4444") 0]>
  (<[py "1" := mkLevelInfo (py "WARN") (py "#FFA500") 1]>
  (<[py "2" := mkLevelInfo (py "INFO") (py "#00AAFF") 2]>
  (<[py "3" := mkLevelInfo (py "DEBUG") (py "#00FF88") 3]>
  (<[py "4" := mkLevelInfo (py "VERBOSE") (py "#888888") 4]>
  (<[py "wm" := mkLevelInfo (py "WIFIMANAGER") (py "#FF00FF") 5]>
  (<[py "verbose" := mkLevelInfo (py "GENERIC") (py "#CCCCCC") 6]> ∅)))))).

(** ** class LogEntry *)

Record datetime := mkDatetime {
  year : N; month : N; day : N;
  hour : N; minute : N; second : N; microsecond : N
}.

Record LogEntry := mkLogEntry {
  raw_data : str;
  timestamp : datetime;
  level : option str;
  message : option str;
  parsed : bool
}.

(** [LogEntry._parse_log]: the attributes of [self] after the call.  A match
    object is the list of its groups; [group(n)] is the lookup [!! (n-1)]. *)
Definition _parse_log (self : LogEntry) : LogEntry :=
  match re_match level_pattern (raw_data self) with
  | Some level_match =>
    mkLogEntry (raw_data self) (timestamp self)
               (level_match !! 0%nat) (level_match !! 1%nat) true
  | None =>
    match re_match wm_pattern (raw_data self) with
    | Some wm_match =>
      mkLogEntry (raw_data self) (timestamp self)
                 (Some (py "wm")) (wm_match !! 0%nat) true
    | None =>
      mkLogEntry (raw_data self) (timestamp self)
                 (Some (py "verbose")) (Some (raw_data self)) false
    end
  end.

(** [LogEntry.__init__(raw_data, timestamp, level=None, message=None)]. *)
Definition LogEntry_init (raw : str) (ts : datetime)
    (lvl : option str) (msg : option str) : LogEntry :=
  _parse_log (mkLogEntry (strip raw) ts lvl msg false).

(** [LogEntry.get_level_name]: [LOG_LEVELS.get(self.level, {}).get('name', 'UNKNOWN')]. *)
Definition get_level_name (self : LogEntry) : str :=
  default (py "UNKNOWN") (name <$> (level self ≫= (LOG_LEVELS !!.))).

(** [LogEntry.get_level_color]. *)
Definition get_level_color (self : LogEntry) : str :=
  default (py "#FFFFFF") (color <$> (level self ≫= (LOG_LEVELS !!.))).

(** ** Markers, in the words of the specification

    A line starts with the severity marker when it is [[d]] followed by
    anything, [d] one of the digits 0 to 4 (code points 48 to 52); it starts
    with the WiFi Manager marker when it is [*wm] followed by anything. *)

Definition starts_with_severity (line : str) : Prop :=
  ∃ d rest, 48 ≤ d ≤ 52 ∧ line = py "[" ++ d :: py "]" ++ rest.

Definition starts_with_wm (line : str) : Prop :=
  ∃ rest, line = py "*wm" ++ rest.

(** The seven category tags of the specification's vocabulary. *)
Definition vocabulary : list str :=
  [py "0"; py "1"; py "2"; py "3"; py "4"; py "wm"; py "verbose"].

(** ** class LogDisplayWidget *)

(** [l[start:]]: a negative [start] counts from the end, and the bound is
    clamped to the list. *)
Definition slice_from {A} (start : Z) (l : list A) : list A :=
  let len := Z.of_nat (length l) in
  let start' := if (start <? 0)%Z then Z.max (start + len) 0 else Z.min start len in
  drop (Z.to_nat start') l.

(** The attributes of the widget the log pipeline reads and writes; the
    rendered text is a function of [filtered_entries]. *)
Record LogDisplayWidget := mkLogDisplayWidget {
  log_entries : list LogEntry;
  filtered_entries : list LogEntry;
  level_filter : list bool;
  max_lines : Z
}.

(** [LogDisplayWidget.__init__]. *)
Definition LogDisplayWidget_init : LogDisplayWidget :=
  mkLogDisplayWidget [] [] (replicate 7 true) 10000.

(** The local dict [level_map] of [apply_filters]. *)
Definition level_map : gmap str nat :=
  <[py "0" := 0%nat]> (<[py "1" := 1%nat]> (<[py "2" := 2%nat]>
  (<[py "3" := 3%nat]> (<[py "4" := 4%nat]> (<[py "wm" := 5%nat]>
  (<[py "verbose" := 6%nat]> ∅)))))).

(** [level_map.get(entry.level, 2)]. *)
Definition level_idx (entry : LogEntry) : nat :=
  default 2%nat (level entry ≫= (level_map !!.)).

(** The test of the loop body:
    [level_idx < len(self.level_filter) and self.level_filter[level_idx]]. *)
Definition passes (level_filter : list bool) (entry : LogEntry) : bool :=
  if (level_idx entry <? length level_filter)%nat
  then default false (level_filter !! level_idx entry)
  else false.

(** [LogDisplayWidget.apply_filters]: the loop appends to the fresh list. *)
Definition apply_filters (self : LogDisplayWidget) : LogDisplayWidget :=
  let filtered :=
    foldl (fun acc entry =>
             if passes (level_filter self) entry then acc ++ [entry] else acc)
          [] (log_entries self) in
  mkLogDisplayWidget (log_entries self) filtered (level_filter self) (max_lines self).

(** [LogDisplayWidget.add_log_entry]. *)
Definition add_log_entry (self : LogDisplayWidget) (entry : LogEntry)
    : LogDisplayWidget :=
  let appended := log_entries self ++ [entry] in
  let kept :=
    if (max_lines self <? Z.of_nat (length appended))%Z
    then slice_from (- max_lines self) appended
    else appended in
  apply_filters
    (mkLogDisplayWidget kept (filtered_entries self) (level_filter self) (max_lines self)).

(** [LogDisplayWidget.set_level_filter]. *)
Definition set_level_filter (self : LogDisplayWidget) (flt : list bool)
    : LogDisplayWidget :=
  apply_filters
    (mkLogDisplayWidget (log_entries self) (filtered_entries self) flt (max_lines self)).

(** [LogDisplayWidget.get_all_entries]: a copy of the list. *)
Definition get_all_entries (self : LogDisplayWidget) : list LogEntry :=
  log_entries self.

(** ** class MainWindow *)

Record MainWindow := mkMainWindow {
  log_display : LogDisplayWidget;
  log_file_size_mb : Z          (* settings['log_file_size_mb'] *)
}.

(** [MainWindow.trim_logs]. *)
Definition trim_logs (self : MainWindow) : MainWindow :=
  let entries := get_all_entries (log_display self) in
  if (1000 <? length entries)%nat
  then
    let w := log_display self in
    mkMainWindow
      (apply_filters
         (mkLogDisplayWidget (slice_from (-1000) entries) (filtered_entries w)
                             (level_filter w) (max_lines w)))
      (log_file_size_mb self)
  else self.

(** [sum(len(entry.raw_data) for entry in entries)]. *)
Definition total_size (entries : list LogEntry) : Z :=
  foldl (fun acc entry => (acc + Z.of_nat (length (raw_data entry)))%Z) 0%Z entries.

(** [total_size / 1024], the true division of Python.  The quotient of an
    int below 2^53 by a power of two is exact in binary floating point, so
    the rational is the value the source compares. *)
Definition size_kb (entries : list LogEntry) : Q := (total_size entries # 1024)%Q.

(** [MainWindow.update_statistics]: its effect on the store (the labels it
    sets are left out). *)
Definition update_statistics (self : MainWindow) : MainWindow :=
  let entries := get_all_entries (log_display self) in
  if negb (Qle_bool (size_kb entries) (inject_Z (log_file_size_mb self * 1024)))
  then trim_logs self
  else self.

(** [MainWindow.on_data_received], with the clock's reading as [now]. *)
Definition on_data_received (self : MainWindow) (data : str) (now : datetime)
    : MainWindow :=
  let entry := LogEntry_init data now None None in
  update_statistics
    (mkMainWindow (add_log_entry (log_display self) entry) (log_file_size_mb self)).

(** The entry [MainWindow.send_data] adds to the display for a sent text:
    [LogEntry(f">> {data}", datetime.now(), level='2')]. *)
Definition sent_entry (data : str) (now : datetime) : LogEntry :=
  LogEntry_init (py ">> " ++ data) now (Some (py "2")) None.

(** ** The filter view, in the words of the specification *)

(** The ordinal of an entry's category in the level registry. *)
Definition ordinal (entry : LogEntry) : option nat :=
  Z.to_nat ∘ priority <$> (level entry ≫= (LOG_LEVELS !!.)).

(** [filter_set[ordinal(entry.category)]] is true. *)
Definition enabled (filter_set : list bool) (entry : LogEntry) : bool :=
  match ordinal entry with
  | Some i => bool_decide (filter_set !! i = Some true)
  | None => false
  end.

(** The [n] most recent entries of a store. *)
Definition last_n {A} (n : nat) (l : list A) : list A := drop (length l - n) l.

(** ** class ExportDialog: the CSV format *)

(** [l[:stop]]. *)
Definition slice_to {A} (stop : Z) (l : list A) : list A :=
  let len := Z.of_nat (length l) in
  let stop' := if (stop <? 0)%Z then Z.max (stop + len) 0 else Z.min stop len in
  take (Z.to_nat stop') l.

(** A non-negative int printed in decimal. *)
Definition dec (n : N) : str := py (NilEmpty.string_of_uint (N.to_uint n)).

(** Zero padding to a width, as the conversions [%02d], [%04d] and [%06d]:
    longer numbers are not cut. *)
Definition zfill (width : nat) (s : str) : str :=
  replicate (width - length s) 48 ++ s.

(** [t.strftime('%Y-%m-%d %H:%M:%S.%f')]. *)
Definition strftime_date_time (t : datetime) : str :=
  zfill 4 (dec (year t)) ++ py "-" ++ zfill 2 (dec (month t)) ++ py "-"
  ++ zfill 2 (dec (day t)) ++ py " "
  ++ zfill 2 (dec (hour t)) ++ py ":" ++ zfill 2 (dec (minute t)) ++ py ":"
  ++ zfill 2 (dec (second t)) ++ py "." ++ zfill 6 (dec (microsecond t)).

(** The double quote and [s.replace(old, new)] for a one-character [old]. *)
Definition dq : str := [34].

Definition replace_char (old : char) (new : str) (s : str) : str :=
  s ≫= (fun c => if c =? old then new else [c]).

(** [ExportDialog.format_entry], the branch taken when the format combo
    reads ["CSV (.csv)"].  [None] stands for the [AttributeError] of
    [entry.message.replace] on a [None] message. *)
Definition format_entry_csv (include_timestamps : bool) (entry : LogEntry)
    : option str :=
  let timestamp :=
    if include_timestamps
    then slice_to (-3) (strftime_date_time (timestamp entry)) else [] in
  let level := get_level_name entry in
  message ← replace_char 34 (dq ++ dq) <$> message entry;
  Some (if include_timestamps
        then dq ++ timestamp ++ dq ++ py "," ++ dq ++ level ++ dq ++ py ","
             ++ dq ++ message ++ dq
        else dq ++ level ++ dq ++ py "," ++ dq ++ message ++ dq).

(** The header [export_logs] writes first for the CSV format. *)
Definition csv_header (include_timestamps : bool) : str :=
  if include_timestamps then py "Timestamp,Level,Message" else py "Level,Message".

(** [ExportDialog.export_logs] for the CSV format: the text written to the
    file when every write succeeds, from the entries selected for export. *)
Definition export_logs_csv (include_timestamps : bool)
    (filtered_entries : list LogEntry) : option str :=
  records ← mapM (format_entry_csv include_timestamps) filtered_entries;
  Some (csv_header include_timestamps ++ [LF]
        ++ concat ((fun record => record ++ [LF]) <$> records)).

(** ** A CSV reader

    The reader a consumer of the exported file runs (RFC 4180): records end
    at a line feed outside quotes, fields at a comma outside quotes; a
    quoted field runs to its closing quote, and two quotes inside it stand
    for one.  It is the reference the export is read back with. *)

Inductive csv_state := RecordStart | FieldStart | Unquoted | Quoted | QuoteSeen.

Fixpoint csv_read (st : csv_state) (field : str) (fields : list str)
    (records : list (list str)) (s : str) : option (list (list str)) :=
  match s with
  | [] =>
    match st with
    | RecordStart => Some records
    | Quoted => None
    | _ => Some (records ++ [fields ++ [field]])
    end
  | c :: s' =>
    match st with
    | RecordStart | FieldStart =>
      if c =? 34 then csv_read Quoted [] fields records s'
      else if c =? 44 then csv_read FieldStart [] (fields ++ [[]]) records s'
      else if c =? LF then csv_read RecordStart [] [] (records ++ [fields ++ [[]]]) s'
      else csv_read Unquoted [c] fields records s'
    | Unquoted =>
      if c =? 34 then None
      else if c =? 44 then csv_read FieldStart [] (fields ++ [field]) records s'
      else if c =? LF then csv_read RecordStart [] [] (records ++ [fields ++ [field]]) s'
      else csv_read Unquoted (field ++ [c]) fields records s'
    | Quoted =>
      if c =? 34 then csv_read QuoteSeen field fields records s'
      else csv_read Quoted (field ++ [c]) fields records s'
    | QuoteSeen =>
      if c =? 34 then csv_read Quoted (field ++ [34]) fields records s'
      else if c =? 44 then csv_read FieldStart [] (fields ++ [field]) records s'
      else if c =? LF then csv_read RecordStart [] [] (records ++ [fields ++ [field]]) s'
      else None
    end
  end.

Definition csv_parse (text : str) : option (list (list str)) :=
  csv_read RecordStart [] [] [] text.

(** The fields of an entry's record, before quoting. *)
Definition csv_fields (include_timestamps : bool) (entry : LogEntry) (msg : str)
    : list str :=
  if include_timestamps
  then [slice_to (-3) (strftime_date_time (timestamp entry));
        get_level_name entry; msg]
  else [get_level_name entry; msg].

(** A field between double quotes, its own double quotes doubled, and
    fields joined by a separator: the shape of a CSV record. *)
Definition csv_quote (field : str) : str :=
  dq ++ replace_char 34 (dq ++ dq) field ++ dq.

Fixpoint join (sep : str) (l : list str) : str :=
  match l with
  | [] => []
  | [x] => x
  | x :: l' => x ++ sep ++ join sep l'
  end.

(** The names of the columns of the header. *)
Definition csv_columns (include_timestamps : bool) : list str :=
  if include_timestamps then [py "Timestamp"; py "Level"; py "Message"]
  else [py "Level"; py "Message"].

(** ** class SerialWorker: the line framing of [read_data]

    Each pass of the reading loop appends the text decoded from the port to
    [buffer] and then runs the inner loop
    [while '\n' in buffer: line, buffer = buffer.split('\n', 1); ...].
    [read_data_step] is one pass, from the text decoded of the read; the
    lines are those handed to the [data_received] signal, in order. *)

Definition CR : char := 13.

(** [line.rstrip('\r')]: every trailing carriage return goes. *)
Definition rstrip_cr (line : str) : str :=
  reverse (drop_while (fun c => c =? CR) (reverse line)).

(** The inner loop.  Every round consumes a line feed of the buffer, so
    [length buffer + 1] rounds always reach the exit test; [fuel] bounds
    the rounds. *)
Fixpoint process_buffer (fuel : nat) (buffer : str) : list str * str :=
  match fuel with
  | O => ([], buffer)
  | S fuel' =>
    if bool_decide (LF ∈ buffer) then
      let line := take_while is_dot buffer in
      let buffer := drop 1 (drop_while is_dot buffer) in
      let line := rstrip_cr line in
      let rest := process_buffer fuel' buffer in
      (if bool_decide (line = []) then rest.1 else line :: rest.1, rest.2)
    else ([], buffer)
  end.

(** One pass of [SerialWorker.read_data] over the text [data] read from the
    port: the lines emitted and the buffer kept for the next pass. *)
Definition read_data_step (buffer data : str) : list str * str :=
  let buffer := buffer ++ data in
  process_buffer (S (length buffer)) buffer.

(** *** The bytes on the wire

    [read_data] decodes the bytes of every read on its own, with
    [bytes.decode('utf-8', errors='replace')]; [send_data] encodes the text
    it writes with [str.encode('utf-8')].  A byte is a number below 256.

    The decoder replaces every ill-formed part by U+FFFD: a byte that cannot
    start a character, a start byte followed by a byte that cannot continue
    it (the bytes accepted so far are replaced, the offending byte is read
    again), and a character cut by the end of the bytes. *)

Definition REPLACEMENT : char := 65533.

Definition is_continuation (b : N) : bool := (128 <=? b) && (b <? 192).

Fixpoint utf8_decode (s : list N) : str :=
  match s with
  | [] => []
  | b0 :: s1 =>
    if b0 <? 128 then b0 :: utf8_decode s1
    else if b0 <? 194 then REPLACEMENT :: utf8_decode s1
    else if b0 <? 224 then
      match s1 with
      | [] => [REPLACEMENT]
      | b1 :: s2 =>
        if is_continuation b1 then (b0 * 64 + b1 - 12416) :: utf8_decode s2
        else REPLACEMENT :: utf8_decode s1
      end
    else if b0 <? 240 then
      match s1 with
      | [] => [REPLACEMENT]
      | b1 :: s2 =>
        if negb (is_continuation b1) || (if b1 <? 160 then b0 =? 224 else b0 =? 237)
        then REPLACEMENT :: utf8_decode s1
        else
          match s2 with
          | [] => [REPLACEMENT]
          | b2 :: s3 =>
            if is_continuation b2
            then (b0 * 4096 + b1 * 64 + b2 - 925824) :: utf8_decode s3
            else REPLACEMENT :: utf8_decode s2
          end
      end
    else if b0 <? 245 then
      match s1 with
      | [] => [REPLACEMENT]
      | b1 :: s2 =>
        if negb (is_continuation b1) || (if b1 <? 144 then b0 =? 240 else b0 =? 244)
        then REPLACEMENT :: utf8_decode s1
        else
          match s2 with
          | [] => [REPLACEMENT]
          | b2 :: s3 =>
            if negb (is_continuation b2) then REPLACEMENT :: utf8_decode s2
            else
              match s3 with
              | [] => [REPLACEMENT]
              | b3 :: s4 =>
                if is_continuation b3
                then (b0 * 262144 + b1 * 4096 + b2 * 64 + b3 - 63447168)
                     :: utf8_decode s4
                else REPLACEMENT :: utf8_decode s3
              end
          end
      end
    else REPLACEMENT :: utf8_decode s1
  end.

(** The bytes of one character; [None] is the [UnicodeEncodeError] raised
    for a surrogate.  A Python string holds no code point above U+10FFFF. *)
Definition utf8_encode_char (c : char) : option (list N) :=
  if c <? 128 then Some [c]
  else if c <? 2048 then Some [192 + c / 64; 128 + c mod 64]
  else if c <? 65536 then
    if (55296 <=? c) && (c <? 57344) then None
    else Some [224 + c / 4096; 128 + c / 64 mod 64; 128 + c mod 64]
  else if c <? 1114112 then
    Some [240 + c / 262144; 128 + c / 4096 mod 64; 128 + c / 64 mod 64;
          128 + c mod 64]
  else None.

Definition utf8_encode (s : str) : option (list N) :=
  encoded ← mapM utf8_encode_char s; Some (concat encoded).

Module SerialWorker.

(** [SerialWorker.read_data]: the reading loop over the successive non-empty
    reads of the port, from the text [buffer] kept so far.  Every read is
    decoded on its own and appended to the buffer, then the inner loop runs. *)
Fixpoint read_data (buffer : str) (reads : list (list N)) : list str * str :=
  match reads with
  | [] => ([], buffer)
  | read :: reads' =>
    let data := utf8_decode read in
    let pass := read_data_step buffer data in
    let later := read_data pass.2 reads' in
    (pass.1 ++ later.1, later.2)
  end.

(** [SerialWorker.send_data] on an open port: the bytes written, [None] when
    the encoding raises, which the method catches to return [False]. *)
Definition send_data (data line_ending : str) : option (list N) :=
  utf8_encode (data ++ line_ending).

End SerialWorker.

(** [Config.LINE_ENDINGS]. *)
Definition LINE_ENDINGS : gmap str str :=
  <[py "CRLF" := [CR; LF]]> (<[py "LF" := [LF]]> (<[py "CR" := [CR]]>
  (<[py "None" := []]> ∅))).

(** The framing in one scan: [cur] is the line read so far. *)
Definition emit_line (line : str) : list str :=
  let line := rstrip_cr line in
  if bool_decide (line = []) then [] else [line].

Fixpoint frame (cur : str) (s : str) : list str * str :=
  match s with
  | [] => ([], cur)
  | c :: s' =>
    if c =? LF then (emit_line cur ++ (frame [] s').1, (frame [] s').2)
    else frame (cur ++ [c]) s'
  end.

(** A character that is neither a carriage return nor a line feed. *)
Definition is_payload (c : char) : Prop := c ≠ CR ∧ c ≠ LF.

#[global] Instance is_payload_dec (c : char) : Decision (is_payload c).
Proof. unfold is_payload. apply _. Defined.

(** ** The plain text and JSON formats *)

(** [t.strftime('%H:%M:%S.%f')]. *)
Definition strftime_time (t : datetime) : str :=
  zfill 2 (dec (hour t)) ++ py ":" ++ zfill 2 (dec (minute t)) ++ py ":"
  ++ zfill 2 (dec (second t)) ++ py "." ++ zfill 6 (dec (microsecond t)).

(** An optional string inside an f-string: [None] prints as ["None"]. *)
Definition format_str (s : option str) : str := default (py "None") s.

(** [LogEntry.to_display_string]. *)
Definition to_display_string (self : LogEntry) (show_timestamp : bool) : str :=
  let timestamp_str :=
    if show_timestamp
    then slice_to (-3) (strftime_time (timestamp self)) ++ py " " else [] in
  timestamp_str ++ py "[" ++ get_level_name self ++ py "] "
  ++ format_str (message self).

(** [LogEntry.to_export_string]. *)
Definition to_export_string (self : LogEntry) (show_timestamp : bool) : str :=
  to_display_string self show_timestamp.

(** The loop [for entry in entries: f.write(entry.to_export_string(show) + '\n')]
    of [save_logs] and [auto_save_logs], and the same text built with [+=]
    by [copy_all_logs]. *)
Definition write_entries (show_timestamps : bool) (entries : list LogEntry) : str :=
  foldl (fun text entry => text ++ to_export_string entry show_timestamps ++ [LF])
        [] entries.

(** [MainWindow.save_logs]: the text written to the chosen file, with the
    [show_timestamps] setting. *)
Definition save_logs (self : MainWindow) (show_timestamps : bool) : str :=
  write_entries show_timestamps (get_all_entries (log_display self)).

(** [MainWindow.copy_all_logs]: the text put on the clipboard. *)
Definition copy_all_logs (self : MainWindow) (show_timestamps : bool) : str :=
  write_entries show_timestamps (filtered_entries (log_display self)).

(** [MainWindow.auto_save_logs]: the text written, [None] when the store is
    empty and nothing is written. *)
Definition auto_save_logs (self : MainWindow) : option str :=
  match get_all_entries (log_display self) with
  | [] => None
  | entries => Some (write_entries true entries)
  end.

(** [json.dumps] of a string, with the default [ensure_ascii=True]: the
    two-character escapes, every other character outside space to [~] as
    [\uXXXX], in lower-case hexadecimal, and a character above U+FFFF as a
    surrogate pair. *)
Definition hex_digit (n : N) : char := if n <? 10 then 48 + n else 87 + n.

Definition hex4 (n : N) : str :=
  [hex_digit (n / 4096 mod 16); hex_digit (n / 256 mod 16);
   hex_digit (n / 16 mod 16); hex_digit (n mod 16)].

Definition json_escape_char (c : char) : str :=
  if c =? 34 then [92; 34]
  else if c =? 92 then [92; 92]
  else if c =? 10 then [92; 110]
  else if c =? 13 then [92; 114]
  else if c =? 9 then [92; 116]
  else if c =? 8 then [92; 98]
  else if c =? 12 then [92; 102]
  else if (32 <=? c) && (c <=? 126) then [c]
  else if c <? 65536 then [92; 117] ++ hex4 c
  else
    let n := c - 65536 in
    let s1 := N.lor 55296 (N.land (N.shiftr n 10) 1023) in
    let s2 := N.lor 56320 (N.land n 1023) in
    [92; 117] ++ hex4 s1 ++ [92; 117] ++ hex4 s2.

Definition json_string (s : str) : str := dq ++ (s ≫= json_escape_char) ++ dq.

(** [json.dumps] of an optional string: [None] is [null]. *)
Definition json_value (s : option str) : str :=
  match s with
  | Some s => json_string s
  | None => py "null"
  end.

(** [t.isoformat()] of a naive datetime: the fraction is left out when the
    microsecond is zero. *)
Definition isoformat (t : datetime) : str :=
  zfill 4 (dec (year t)) ++ py "-" ++ zfill 2 (dec (month t)) ++ py "-"
  ++ zfill 2 (dec (day t)) ++ py "T"
  ++ zfill 2 (dec (hour t)) ++ py ":" ++ zfill 2 (dec (minute t)) ++ py ":"
  ++ zfill 2 (dec (second t))
  ++ (if microsecond t =? 0 then [] else py "." ++ zfill 6 (dec (microsecond t))).

(** [ExportDialog.format_entry], the JSON branch: [json.dumps] of the dict
    with the keys [level], [message] and, when asked for, [timestamp], in
    this order, with the default separators. *)
Definition format_entry_json (include_timestamps : bool) (entry : LogEntry) : str :=
  py "{" ++ json_string (py "level") ++ py ": " ++ json_string (get_level_name entry)
  ++ py ", " ++ json_string (py "message") ++ py ": " ++ json_value (message entry)
  ++ (if include_timestamps
      then py ", " ++ json_string (py "timestamp") ++ py ": "
           ++ json_string (isoformat (timestamp entry))
      else [])
  ++ py "}".

(** [needle in hay] for strings. *)
Fixpoint is_prefix (p s : str) : bool :=
  match p, s with
  | [], _ => true
  | _ :: _, [] => false
  | a :: p', b :: s' => (a =? b) && is_prefix p' s'
  end.

Fixpoint contains (needle hay : str) : bool :=
  is_prefix needle hay
  || match hay with
     | [] => false
     | _ :: hay' => contains needle hay'
     end.

(** ** class ExportDialog: the selection of entries *)

(** [list(Config.LOG_LEVELS.keys())]: the keys in the order of the dict
    literal. *)
Definition LOG_LEVELS_keys : list str :=
  [py "0"; py "1"; py "2"; py "3"; py "4"; py "wm"; py "verbose"].

Module ExportDialog.

(** The attributes the export reads: the entries handed to the dialog, the
    states of the level check boxes, the timestamp check box and the text of
    the format combo. *)
Record t := mk {
  log_entries : list LogEntry;
  level_checkboxes : list bool;
  include_timestamps : bool;
  format_combo : str
}.

(** [ExportDialog.__init__] and [setup_ui]: one checked box per level,
    timestamps included, the first format selected. *)
Definition init (entries : list LogEntry) : t :=
  mk entries (replicate (length LOG_LEVELS_keys) true) true (py "Plain Text (.txt)").

(** The first loop of [get_filtered_entries], over
    [enumerate(self.level_checkboxes)] from index [i]. *)
Fixpoint selected_levels_from (i : nat) (checkboxes : list bool) : list str :=
  match checkboxes with
  | [] => []
  | cb :: rest =>
    (if cb && (i <? length LOG_LEVELS_keys)%nat
     then [default [] (LOG_LEVELS_keys !! i)] else [])
    ++ selected_levels_from (S i) rest
  end.

Definition selected_levels (self : t) : list str :=
  selected_levels_from 0 (level_checkboxes self).

(** [ExportDialog.get_filtered_entries]; [entry.level in selected_levels]
    is false for a [None] level. *)
Definition get_filtered_entries (self : t) : list LogEntry :=
  let selected_levels := selected_levels self in
  foldl (fun filtered entry =>
           if bool_decide (level entry ∈ Some <$> selected_levels)
           then filtered ++ [entry] else filtered)
        [] (log_entries self).

(** [select_all_levels] and [select_no_levels]. *)
Definition select_all_levels (self : t) : t :=
  mk (log_entries self) ((fun _ => true) <$> level_checkboxes self)
     (include_timestamps self) (format_combo self).

Definition select_no_levels (self : t) : t :=
  mk (log_entries self) ((fun _ => false) <$> level_checkboxes self)
     (include_timestamps self) (format_combo self).

(** [ExportDialog.format_entry]; [None] is the exception of the CSV branch
    on an entry without message. *)
Definition format_entry (self : t) (entry : LogEntry) : option str :=
  let format_type := format_combo self in
  let include_timestamps := include_timestamps self in
  if contains (py "Plain Text") format_type
  then Some (to_export_string entry include_timestamps)
  else if contains (py "CSV") format_type
  then format_entry_csv include_timestamps entry
  else if contains (py "JSON") format_type
  then Some (format_entry_json include_timestamps entry)
  else Some (to_export_string entry include_timestamps).

(** [ExportDialog.export_logs]: the text written to the chosen file when
    every write succeeds. *)
Definition export_logs (self : t) : option str :=
  let format_type := format_combo self in
  let filtered_entries := get_filtered_entries self in
  let header :=
    if contains (py "CSV") format_type
    then csv_header (include_timestamps self) ++ [LF] else [] in
  records ← mapM (format_entry self) filtered_entries;
  Some (header ++ concat ((fun record => record ++ [LF]) <$> records)).

End ExportDialog.

(** [MainWindow.export_logs]: the dialog opens on a copy of the store. *)
Definition export_logs (self : MainWindow) : ExportDialog.t :=
  ExportDialog.init (get_all_entries (log_display self)).

(** ** A JSON reader

    The reader a consumer of the JSON export runs on each line, for the
    objects the export writes: members whose values are strings or [null].
    Strings are read as [json.loads] reads them: an escape stands for its
    character, [\uXXXX] for the code unit, and a high surrogate followed by a
    low one for the character above U+FFFF (the shift and the or of the
    decoder are written as arithmetic). *)

Definition unhex_digit (c : char) : option N :=
  if (48 <=? c) && (c <=? 57) then Some (c - 48)
  else if (97 <=? c) && (c <=? 102) then Some (c - 87)
  else if (65 <=? c) && (c <=? 70) then Some (c - 55)
  else None.

Definition unhex4 (a b c d : char) : option N :=
  a' ← unhex_digit a; b' ← unhex_digit b; c' ← unhex_digit c; d' ← unhex_digit d;
  Some (a' * 4096 + b' * 256 + c' * 16 + d').

Definition simple_escape (e : char) : option char :=
  if e =? 34 then Some 34
  else if e =? 92 then Some 92
  else if e =? 47 then Some 47
  else if e =? 98 then Some 8
  else if e =? 102 then Some 12
  else if e =? 110 then Some 10
  else if e =? 114 then Some 13
  else if e =? 116 then Some 9
  else None.

Definition push (c : char) (r : option (str * str)) : option (str * str) :=
  match r with
  | Some (text, rest) => Some (c :: text, rest)
  | None => None
  end.

(** The string whose opening quote has been read: its text and what
    follows its closing quote. *)
Fixpoint json_read_string (s : str) : option (str * str) :=
  match s with
  | [] => None
  | c :: rest =>
    if c =? 34 then Some ([], rest)
    else if c =? 92 then
      match rest with
      | [] => None
      | e :: rest1 =>
        if e =? 117 then
          match rest1 with
          | h1 :: h2 :: h3 :: h4 :: rest2 =>
            match unhex4 h1 h2 h3 h4 with
            | None => None
            | Some u =>
              if (55296 <=? u) && (u <=? 56319) then
                match rest2 with
                | b :: u' :: l1 :: l2 :: l3 :: l4 :: rest3 =>
                  if (b =? 92) && (u' =? 117) then
                    match unhex4 l1 l2 l3 l4 with
                    | None => None
                    | Some v =>
                      if (56320 <=? v) && (v <=? 57343)
                      then push (65536 + ((u - 55296) * 1024 + (v - 56320)))
                                (json_read_string rest3)
                      else push u (json_read_string rest2)
                    end
                  else push u (json_read_string rest2)
                | _ => push u (json_read_string rest2)
                end
              else push u (json_read_string rest2)
            end
          | _ => None
          end
        else
          match simple_escape e with
          | Some c' => push c' (json_read_string rest1)
          | None => None
          end
      end
    else if c <? 32 then None
    else push c (json_read_string rest)
  end.

Definition is_json_space (c : char) : bool :=
  (c =? 32) || (c =? 9) || (c =? 10) || (c =? 13).

(** A value: a string or [null]. *)
Definition json_read_value (s : str) : option (option str * str) :=
  match drop_while is_json_space s with
  | c :: rest =>
    if c =? 34 then
      match json_read_string rest with
      | Some (text, rest') => Some (Some text, rest')
      | None => None
      end
    else if is_prefix (py "null") (c :: rest) then Some (None, drop 3 rest)
    else None
  | [] => None
  end.

(** The members of an object after its brace or a comma, up to the closing
    brace; [fuel] bounds their number. *)
Fixpoint json_read_members (fuel : nat) (s : str)
    : option (list (str * option str) * str) :=
  match fuel with
  | O => None
  | S fuel' =>
    match drop_while is_json_space s with
    | q :: s1 =>
      if q =? 34 then
        match json_read_string s1 with
        | Some (key, s2) =>
          match drop_while is_json_space s2 with
          | colon :: s3 =>
            if colon =? 58 then
              match json_read_value s3 with
              | Some (value, s4) =>
                match drop_while is_json_space s4 with
                | sep :: s5 =>
                  if sep =? 125 then Some ([(key, value)], s5)
                  else if sep =? 44 then
                    match json_read_members fuel' s5 with
                    | Some (members, s6) => Some ((key, value) :: members, s6)
                    | None => None
                    end
                  else None
                | [] => None
                end
              | None => None
              end
            else None
          | [] => None
          end
        | None => None
        end
      else None
    | [] => None
    end
  end.

(** A line holding one object and nothing else. *)
Definition json_read_object (line : str) : option (list (str * option str)) :=
  match drop_while is_json_space line with
  | c :: rest =>
    if c =? 123 then
      match json_read_members (length rest) rest with
      | Some (members, tail) =>
        match drop_while is_json_space tail with
        | [] => Some members
        | _ => None
        end
      | None => None
      end
    else None
  | [] => None
  end.

(** A character a decoded text can hold: a code point that is not a
    surrogate. *)
Definition is_scalar (c : char) : Prop := c < 55296 ∨ (57344 ≤ c ∧ c < 1114112).

(** ** Reading a text file back

    The lines of a text as a reader of the file sees them: each line ends at
    a line feed, which is not part of it; a last line without line feed
    counts when it is not empty.  [cur] is the line read so far. *)

Fixpoint split_lines (cur : str) (text : str) : list str :=
  match text with
  | [] => match cur with [] => [] | _ => [cur] end
  | c :: text' =>
    if c =? LF then cur :: split_lines [] text'
    else split_lines (cur ++ [c]) text'
  end.

(** ** class MainWindow: ports and handlers *)

(** The item [refresh_ports] adds for a port:
    [f"{port.device} - {port.description}"]. *)
Definition port_item (device description : str) : str :=
  device ++ py " - " ++ description.

(** [text.split(sep)[0]] for a non-empty [sep]: the text before the first
    occurrence of [sep], the whole text when there is none. *)
Fixpoint split_head (sep text : str) : str :=
  if is_prefix sep text then []
  else match text with
       | [] => []
       | c :: text' => c :: split_head sep text'
       end.

(** The port [connect_serial] opens: [currentText().split(' - ')[0]]. *)
Definition selected_port (current_text : str) : str :=
  split_head (py " - ") current_text.

(** [LogDisplayWidget.clear_logs]. *)
Definition clear_logs (self : LogDisplayWidget) : LogDisplayWidget :=
  mkLogDisplayWidget [] [] (level_filter self) (max_lines self).

(** [MainWindow.send_data]: [connected] stands for
    [self.connected and self.serial_worker], [written] for the result of
    [SerialWorker.send_data]; the sent line joins the display only after a
    successful write, and the size check is not run. *)
Definition send_data (self : MainWindow) (connected written : bool)
    (data : str) (now : datetime) : MainWindow :=
  if connected then
    match data with
    | [] => self
    | _ =>
      if written
      then mkMainWindow (add_log_entry (log_display self) (sent_entry data now))
                        (log_file_size_mb self)
      else self
    end
  else self.

(** [MainWindow.update_level_filter], with the states of the check boxes. *)
Definition update_level_filter (self : MainWindow) (checked : list bool)
    : MainWindow :=
  update_statistics
    (mkMainWindow (set_level_filter (log_display self) checked)
                  (log_file_size_mb self)).

(** [MainWindow.clear_logs], with the answer to the question box. *)
Definition main_clear_logs (self : MainWindow) (confirmed : bool) : MainWindow :=
  if confirmed
  then update_statistics
         (mkMainWindow (clear_logs (log_display self)) (log_file_size_mb self))
  else self.

(** [MainWindow.show_settings] when the dialog is accepted, followed by
    [apply_settings]: the new ceilings come from the dialog's spin boxes,
    the check boxes keep their states. *)
Definition apply_settings (self : MainWindow) (new_max_lines new_size_mb : Z)
    (checked : list bool) : MainWindow :=
  let w := log_display self in
  update_level_filter
    (mkMainWindow
       (mkLogDisplayWidget (log_entries w) (filtered_entries w) (level_filter w)
                           new_max_lines)
       new_size_mb)
    checked.

(** What happens to a session, one event at a time. *)
Inductive event :=
| DataReceived (data : str) (now : datetime)
| DataSent (connected written : bool) (data : str) (now : datetime)
| FilterChanged (checked : list bool)
| ClearRequested (confirmed : bool)
| SettingsAccepted (new_max_lines new_size_mb : Z) (checked : list bool).

Definition handle (self : MainWindow) (ev : event) : MainWindow :=
  match ev with
  | DataReceived data now => on_data_received self data now
  | DataSent connected written data now => send_data self connected written data now
  | FilterChanged checked => update_level_filter self checked
  | ClearRequested confirmed => main_clear_logs self confirmed
  | SettingsAccepted m s checked => apply_settings self m s checked
  end.

(** [MainWindow.__init__]: the display as created, the default ceiling. *)
Definition MainWindow_init : MainWindow := mkMainWindow LogDisplayWidget_init 10.

(** The display shows the store filtered by its filter set. *)
Definition view_current (w : LogDisplayWidget) : Prop :=
  filtered_entries w = List.filter (passes (level_filter w)) (log_entries w).

(** An entry as the constructor leaves it: a tag of the vocabulary, a
    message, and a raw text without blanks around it. *)
Definition constructed (entry : LogEntry) : Prop :=
  ∃ raw ts lvl msg, entry = LogEntry_init raw ts lvl msg.

(** ** Sample values *)

(** A reading of the clock and an entry constructed from a line at it. *)
Definition ts0 : datetime := mkDatetime 2024 5 17 9 30 15 123456.

Definition entry_of (line : string) : LogEntry :=
  LogEntry_init (py line) ts0 None None.

(** ** Lists and strings *)

Section while_facts.
  Context {A : Type} (p : A → bool).
  Implicit Types l : list A.

Lemma take_take_while l :
  take (length (take_while p l)) l = take_while p l.
Proof. induction l as [|x l IH]; simpl; [done|]. destruct (p x); simpl; [by rewrite IH|done]. Qed.

Lemma drop_take_while l :
  drop (length (take_while p l)) l = drop_while p l.
Proof. induction l as [|x l IH]; simpl; [done|]. destruct (p x); simpl; done. Qed.

Lemma take_while_all l :
  Forall (fun x => p x = true) l -> take_while p l = l.
Proof. induction 1 as [|x l Hx _ IH]; simpl; [done|]. by rewrite Hx, IH. Qed.

Lemma drop_while_suffix l : drop_while p l `suffix_of` l.
Proof. rewrite <- drop_take_while. apply suffix_drop. Qed.

Lemma drop_while_app_keep l (c : A) :
  p c = false → drop_while p (l ++ [c]) = drop_while p l ++ [c].
Proof.
  intros Hc. induction l as [|x l IH]; simpl.
  - by rewrite Hc.
  - destruct (p x); done.
Qed.
End while_facts.

(** ** The two patterns, in closed form *)

Lemma re_star_greedy its p g pos s groups :
  re_items its (pos + length (take_while p s))%nat (drop_while p s) = Some groups ->
  re_items ((Star p, g) :: its) pos s = Some (capture g (take_while p s) groups).
Proof.
  intros H. cbn [re_items].
  pose proof (take_take_while p s) as Ht. pose proof (drop_take_while p s) as Hd.
  revert H Ht Hd. generalize (length (take_while p s)). intros n H Ht Hd.
  rewrite <- Hd in H. rewrite <- Ht.
  destruct n; rewrite H; done.
Qed.

Lemma re_tail p s pos :
  re_items [(Star is_space, false); (Star p, true)] pos s
  = Some [take_while p (lstrip s)].
Proof.
  erewrite re_star_greedy; [reflexivity|].
  erewrite re_star_greedy; [reflexivity|]. reflexivity.
Qed.

Lemma re_bol g its s :
  re_items ((Bol, g) :: its) 0%nat s = capture g [] <$> re_items its 0%nat s.
Proof. reflexivity. Qed.

Lemma re_lit c g its pos x s :
  re_items ((Lit c, g) :: its) pos (x :: s)
  = if x =? c then capture g [x] <$> re_items its (S pos) s else None.
Proof. reflexivity. Qed.

Lemma re_cls p g its pos x s :
  re_items ((Cls p, g) :: its) pos (x :: s)
  = if p x then capture g [x] <$> re_items its (S pos) s else None.
Proof. reflexivity. Qed.

Lemma re_lit_nil c g its pos : re_items ((Lit c, g) :: its) pos [] = None.
Proof. reflexivity. Qed.

Lemma re_cls_nil p g its pos : re_items ((Cls p, g) :: its) pos [] = None.
Proof. reflexivity. Qed.

Ltac re_step :=
  rewrite ?re_bol, ?re_lit, ?re_cls, ?re_lit_nil, ?re_cls_nil, ?re_tail.

Lemma re_level_spec (s : str) :
  re_match level_pattern s =
  match s with
  | c1 :: d :: c3 :: rest =>
    if (c1 =? 91) && is_0_4 d && (c3 =? 93)
    then Some [[d]; take_while is_dot (lstrip rest)] else None
  | _ => None
  end.
Proof.
  unfold re_match, level_pattern.
  destruct s as [|c1 [|d [|c3 rest]]]; re_step; try done.
  - destruct (c1 =? 91); done.
  - destruct (c1 =? 91); [|done]. re_step. destruct (is_0_4 d); re_step; done.
  - destruct (c1 =? 91); [|done]. re_step.
    destruct (is_0_4 d); [|done]. re_step.
    destruct (c3 =? 93); [|done]. re_step. done.
Qed.

Lemma re_wm_spec (s : str) :
  re_match wm_pattern s =
  match s with
  | c1 :: c2 :: c3 :: rest =>
    if (c1 =? 42) && (c2 =? 119) && (c3 =? 109)
    then Some [take_while is_dot (lstrip rest)] else None
  | _ => None
  end.
Proof.
  unfold re_match, wm_pattern.
  destruct s as [|c1 [|c2 [|c3 rest]]]; re_step; try done.
  - destruct (c1 =? 42); done.
  - destruct (c1 =? 42); [|done]. re_step. destruct (c2 =? 119); re_step; done.
  - destruct (c1 =? 42); [|done]. re_step.
    destruct (c2 =? 119); [|done]. re_step.
    destruct (c3 =? 109); [|done]. re_step. done.
Qed.

(** ** [_parse_log], case by case *)

Lemma is_0_4_spec d : is_0_4 d = true ↔ 48 ≤ d ≤ 52.
Proof. unfold is_0_4. rewrite andb_true_iff, !N.leb_le. done. Qed.

Lemma first_line_id (s : str) : LF ∉ s → take_while is_dot s = s.
Proof.
  intros H. apply take_while_all, Forall_forall. intros c Hc.
  unfold is_dot. apply negb_true_iff, N.eqb_neq. intros ->. done.
Qed.

Lemma not_elem_of_lstrip c (s : str) : c ∉ s → c ∉ lstrip s.
Proof.
  intros H Hc. apply H. destruct (drop_while_suffix is_space s) as [k Hk].
  rewrite Hk. apply elem_of_app. by right.
Qed.

Lemma parse_severity self d rest :
  48 ≤ d ≤ 52 → raw_data self = 91 :: d :: 93 :: rest →
  _parse_log self =
  mkLogEntry (raw_data self) (timestamp self)
             (Some [d]) (Some (take_while is_dot (lstrip rest))) true.
Proof.
  intros Hd Hraw. unfold _parse_log. rewrite re_level_spec, Hraw.
  apply is_0_4_spec in Hd. rewrite Hd. done.
Qed.

Lemma parse_not_severity self :
  ¬ starts_with_severity (raw_data self) →
  re_match level_pattern (raw_data self) = None.
Proof.
  intros H. rewrite re_level_spec.
  destruct (raw_data self) as [|c1 [|d [|c3 rest]]]; try done.
  destruct (c1 =? 91) eqn:E1; [|done]. destruct (is_0_4 d) eqn:Ed; [|done].
  destruct (c3 =? 93) eqn:E3; [|done]. exfalso. apply H.
  apply N.eqb_eq in E1, E3. apply is_0_4_spec in Ed. subst. by exists d, rest.
Qed.

Lemma parse_wm self rest :
  raw_data self = 42 :: 119 :: 109 :: rest →
  _parse_log self =
  mkLogEntry (raw_data self) (timestamp self)
             (Some (py "wm")) (Some (take_while is_dot (lstrip rest))) true.
Proof.
  intros Hraw. unfold _parse_log. rewrite re_level_spec, re_wm_spec, Hraw. done.
Qed.

Lemma parse_generic self :
  ¬ starts_with_severity (raw_data self) → ¬ starts_with_wm (raw_data self) →
  _parse_log self =
  mkLogEntry (raw_data self) (timestamp self)
             (Some (py "verbose")) (Some (raw_data self)) false.
Proof.
  intros Hs Hw. unfold _parse_log. rewrite (parse_not_severity _ Hs), re_wm_spec.
  destruct (raw_data self) as [|c1 [|c2 [|c3 rest]]] eqn:E; try done.
  destruct (c1 =? 42) eqn:E1; [|done]. destruct (c2 =? 119) eqn:E2; [|done].
  destruct (c3 =? 109) eqn:E3; [|done]. exfalso. apply Hw.
  apply N.eqb_eq in E1, E2, E3. subst. by exists rest.
Qed.

(** The three cases are exhaustive and exclusive. *)
Lemma severity_not_wm line : starts_with_severity line → ¬ starts_with_wm line.
Proof. intros (d & rest & _ & ->) [rest' H]. done. Qed.

Lemma marker_cases line :
  starts_with_severity line ∨ starts_with_wm line
  ∨ (¬ starts_with_severity line ∧ ¬ starts_with_wm line).
Proof.
  destruct line as [|c1 [|c2 [|c3 rest]]].
  1-3: right; right; split; [intros (?&?&?&?)|intros (?&?)]; done.
  destruct (decide (c1 = 91 ∧ 48 ≤ c2 ≤ 52 ∧ c3 = 93)) as [(->&H&->)|Hs].
  { left. by exists c2, rest. }
  destruct (decide (c1 = 42 ∧ c2 = 119 ∧ c3 = 109)) as [(->&->&->)|Hw].
  { right; left. by exists rest. }
  right; right; split.
  - intros (d & r & Hd & E). apply Hs. cbn in E. by simplify_eq.
  - intros (r & E). apply Hw. cbn in E. by simplify_eq.
Qed.

Lemma parse_ignores_attributes r t l m p :
  _parse_log (mkLogEntry r t l m p) = _parse_log (mkLogEntry r t None None false).
Proof. reflexivity. Qed.

Lemma severity_registered d :
  48 ≤ d ≤ 52 →
  ∃ info, LOG_LEVELS !! [d] = Some info ∧ priority info = (Z.of_N d - 48)%Z.
Proof.
  intros H.
  assert (d = 48 ∨ d = 49 ∨ d = 50 ∨ d = 51 ∨ d = 52) as Hd by lia.
  destruct Hd as [->|[->|[->|[->| ->]]]]; eexists; split; vm_compute; reflexivity.
Qed.

(** ** [strip] *)

Lemma rstrip_cons_keep c (s : str) :
  is_space c = false → ∃ t, rstrip (c :: s) = c :: t.
Proof.
  intros Hc. unfold rstrip. rewrite reverse_cons, drop_while_app_keep by done.
  rewrite reverse_app. by eexists.
Qed.

Lemma strip_cons_keep c (s : str) :
  is_space c = false → ∃ t, strip (c :: s) = c :: t.
Proof.
  intros Hc. unfold strip, lstrip. simpl. rewrite Hc. by apply rstrip_cons_keep.
Qed.

Lemma not_severity_first c (t : str) : c ≠ 91 → ¬ starts_with_severity (c :: t).
Proof. intros Hc (d & rest & _ & E). cbn in E. by simplify_eq. Qed.

Lemma not_wm_first c (t : str) : c ≠ 42 → ¬ starts_with_wm (c :: t).
Proof. intros Hc (rest & E). cbn in E. by simplify_eq. Qed.

Lemma unregistered_level (l : str) : l ∉ vocabulary → LOG_LEVELS !! l = None.
Proof.
  unfold vocabulary, LOG_LEVELS. rewrite !not_elem_of_cons.
  intros (?&?&?&?&?&?&?&_). rewrite !lookup_insert_ne by done. apply lookup_empty.
Qed.

(** ** Slices and the most recent entries *)

Lemma slice_from_neg {A} (n : nat) (l : list A) :
  (0 < n)%nat → slice_from (- Z.of_nat n) l = last_n n l.
Proof.
  intros Hn. unfold slice_from, last_n.
  destruct (Z.ltb_spec (- Z.of_nat n) 0) as [_|H]; [|lia].
  f_equal. lia.
Qed.

Lemma slice_from_suffix {A} (start : Z) (l : list A) : slice_from start l `suffix_of` l.
Proof. apply suffix_drop. Qed.

Lemma last_n_suffix {A} (n : nat) (l : list A) : last_n n l `suffix_of` l.
Proof. apply suffix_drop. Qed.

Lemma length_last_n {A} (n : nat) (l : list A) :
  length (last_n n l) = Nat.min n (length l).
Proof. unfold last_n. rewrite length_drop. lia. Qed.

Lemma last_n_all {A} (n : nat) (l : list A) : (length l ≤ n)%nat → last_n n l = l.
Proof. intros H. unfold last_n. by replace (length l - n)%nat with 0%nat by lia. Qed.

Lemma last_n_app_l {A} (n : nat) (l k : list A) :
  last_n n (last_n n l ++ k) = last_n n (l ++ k).
Proof.
  destruct (decide (length l ≤ n)%nat) as [Hle|Hgt].
  { by rewrite (last_n_all n l). }
  unfold last_n at 1 3. rewrite !length_app, length_last_n. unfold last_n.
  destruct (decide (length k ≤ n)%nat) as [Hk|Hk].
  - rewrite (drop_app_le l k) by lia.
    rewrite (drop_app_le (drop _ l)) by (rewrite length_drop; lia).
    rewrite drop_drop. do 2 f_equal. lia.
  - rewrite (drop_app_ge l k) by lia.
    rewrite (drop_app_ge (drop _ l)) by (rewrite length_drop; lia).
    rewrite length_drop. f_equal. lia.
Qed.

(** ** [apply_filters] *)

Lemma filter_loop (p : LogEntry → bool) (acc l : list LogEntry) :
  foldl (fun acc entry => if p entry then acc ++ [entry] else acc) acc l
  = acc ++ List.filter p l.
Proof.
  revert acc. induction l as [|e l IH]; intros acc; simpl.
  - by rewrite app_nil_r.
  - rewrite IH. destruct (p e); [|done]. by rewrite <- app_assoc.
Qed.

Lemma apply_filters_filtered self :
  filtered_entries (apply_filters self)
  = List.filter (passes (level_filter self)) (log_entries self).
Proof. unfold apply_filters. cbn [filtered_entries]. by rewrite filter_loop. Qed.

Lemma apply_filters_log_entries self :
  log_entries (apply_filters self) = log_entries self.
Proof. reflexivity. Qed.

Lemma list_filter_sublist {A} (p : A → bool) (l : list A) :
  List.filter p l `sublist_of` l.
Proof.
  induction l as [|x l IH]; simpl; [constructor|].
  destruct (p x); by constructor.
Qed.

Lemma list_filter_all {A} (p : A → bool) (l : list A) :
  (∀ x, x ∈ l → p x = true) → List.filter p l = l.
Proof.
  induction l as [|x l IH]; intros H; simpl; [done|].
  rewrite (H x) by left. f_equal. apply IH. intros y Hy. apply H. by right.
Qed.

Lemma list_filter_none {A} (p : A → bool) (l : list A) :
  (∀ x, x ∈ l → p x = false) → List.filter p l = [].
Proof.
  induction l as [|x l IH]; intros H; simpl; [done|].
  rewrite (H x) by left. apply IH. intros y Hy. apply H. by right.
Qed.

Lemma list_filter_ext_in {A} (p q : A → bool) (l : list A) :
  (∀ x, x ∈ l → p x = q x) → List.filter p l = List.filter q l.
Proof.
  induction l as [|x l IH]; intros H; simpl; [done|].
  rewrite (H x) by left. rewrite IH; [done|]. intros y Hy. apply H. by right.
Qed.

Lemma level_idx_bound entry : (level_idx entry < 7)%nat.
Proof.
  unfold level_idx. destruct (level entry) as [l|]; cbn [mbind option_bind default id]; [|lia].
  destruct (level_map !! l) as [i|] eqn:H; cbn [default id]; [|lia].
  unfold level_map in H.
  repeat (apply lookup_insert_Some in H as [[_ <-]|[_ H]]; [lia|]).
  by rewrite lookup_empty in H.
Qed.

(** On the vocabulary the index of [level_map] is the registry's priority. *)
Lemma level_idx_ordinal entry l :
  level entry = Some l → l ∈ vocabulary → ordinal entry = Some (level_idx entry).
Proof.
  intros Hl Hin. unfold ordinal, level_idx. rewrite Hl. cbn [mbind option_bind].
  unfold vocabulary in Hin.
  repeat (apply elem_of_cons in Hin as [->|Hin]; [by vm_compute|]).
  by apply elem_of_nil in Hin.
Qed.

Lemma passes_enabled flt entry l :
  level entry = Some l → l ∈ vocabulary → passes flt entry = enabled flt entry.
Proof.
  intros Hl Hin. unfold passes, enabled. rewrite (level_idx_ordinal entry l Hl Hin).
  destruct (Nat.ltb_spec (level_idx entry) (length flt)) as [Hlt|Hge].
  - destruct (lookup_lt_is_Some_2 flt _ Hlt) as [b Hb]. rewrite Hb. cbn [default].
    destruct b.
    + by rewrite bool_decide_eq_true_2.
    + rewrite bool_decide_eq_false_2; [done|]. congruence.
  - rewrite lookup_ge_None_2 by lia. by rewrite bool_decide_eq_false_2.
Qed.

(** Every constructed entry carries a tag of the vocabulary. *)
Lemma parse_in_vocabulary self :
  ∃ l, level (_parse_log self) = Some l ∧ l ∈ vocabulary.
Proof.
  destruct (marker_cases (raw_data self)) as [Hs|[Hw|[Hs Hw]]].
  - destruct Hs as (d & rest & Hd & Hraw). cbn in Hraw.
    rewrite (parse_severity self d rest Hd Hraw). exists [d]. split; [done|].
    assert (d = 48 ∨ d = 49 ∨ d = 50 ∨ d = 51 ∨ d = 52) as Hc by lia.
    destruct Hc as [->|[->|[->|[->| ->]]]];
      apply (bool_decide_unpack _); vm_compute; exact I.
  - destruct Hw as (rest & Hraw). cbn in Hraw.
    rewrite (parse_wm self rest Hraw). eexists. split; [done|].
    apply (bool_decide_unpack _); vm_compute; exact I.
  - rewrite (parse_generic self Hs Hw). eexists. split; [done|].
    apply (bool_decide_unpack _); vm_compute; exact I.
Qed.

(** ** [add_log_entry] and the size check *)

Lemma add_log_entry_log_entries self entry :
  (0 < max_lines self)%Z →
  log_entries (add_log_entry self entry)
  = last_n (Z.to_nat (max_lines self)) (log_entries self ++ [entry]).
Proof.
  intros Hm. unfold add_log_entry. rewrite apply_filters_log_entries.
  cbn [log_entries].
  destruct (Z.ltb_spec (max_lines self) (Z.of_nat (length (log_entries self ++ [entry]))))
    as [Hlt|Hge].
  - rewrite <- (Z2Nat.id (max_lines self)) at 1 by lia.
    apply slice_from_neg. lia.
  - symmetry. apply last_n_all. lia.
Qed.

Lemma add_log_entry_suffix self entry :
  log_entries (add_log_entry self entry) `suffix_of` (log_entries self ++ [entry]).
Proof.
  unfold add_log_entry. rewrite apply_filters_log_entries. cbn [log_entries].
  destruct (_ <? _)%Z; [apply slice_from_suffix|done].
Qed.

Lemma add_log_entry_max_lines self entry :
  max_lines (add_log_entry self entry) = max_lines self.
Proof. reflexivity. Qed.

Lemma appends_max_lines self entries :
  max_lines (foldl add_log_entry self entries) = max_lines self.
Proof.
  revert self. induction entries as [|e es IH]; intros self; simpl; [done|].
  by rewrite IH.
Qed.

Lemma appends_log_entries self e es :
  (0 < max_lines self)%Z →
  log_entries (foldl add_log_entry self (e :: es))
  = last_n (Z.to_nat (max_lines self)) (log_entries self ++ e :: es).
Proof.
  revert e self. induction es as [|e' es IH]; intros e self Hm.
  - by apply add_log_entry_log_entries.
  - change (foldl add_log_entry self (e :: e' :: es))
      with (foldl add_log_entry (add_log_entry self e) (e' :: es)).
    rewrite IH by done. rewrite add_log_entry_max_lines.
    rewrite add_log_entry_log_entries by done.
    rewrite last_n_app_l. by rewrite <- app_assoc.
Qed.

Lemma size_check_spec entries mb :
  negb (Qle_bool (size_kb entries) (inject_Z (mb * 1024))) = true
  ↔ (mb * 1024 * 1024 < total_size entries)%Z.
Proof.
  rewrite negb_true_iff, <- not_true_iff_false, Qle_bool_iff.
  unfold size_kb, Qle, inject_Z. cbn [Qnum Qden]. lia.
Qed.

(** ** CSV: what the export writes and what the reader reads back *)

Lemma replace_char_id old new (s : str) : old ∉ s → replace_char old new s = s.
Proof.
  unfold replace_char. induction s as [|c s IH]; intros H; [done|].
  rewrite bind_cons. apply not_elem_of_cons in H as [Hc Hs].
  rewrite IH by done. destruct (N.eqb_spec c old); [congruence|done].
Qed.

Lemma read_quoted (m : str) field fields records (rest : str) :
  csv_read Quoted field fields records (replace_char 34 (dq ++ dq) m ++ 34 :: rest)
  = csv_read QuoteSeen (field ++ m) fields records rest.
Proof.
  revert field. unfold replace_char.
  induction m as [|c m IH]; intros field.
  - by rewrite app_nil_r.
  - rewrite bind_cons. destruct (N.eqb_spec c 34) as [->|Hc].
    + cbn. rewrite IH. by rewrite <- app_assoc.
    + cbn. rewrite (proj2 (N.eqb_neq c 34) Hc). rewrite IH. by rewrite <- app_assoc.
Qed.

(** A quoted field and the comma after it, read from the start of a record
    or of a field. *)
Lemma read_field_comma st (f : str) fields records (rest : str) :
  st = RecordStart ∨ st = FieldStart →
  csv_read st [] fields records (34 :: replace_char 34 (dq ++ dq) f ++ 34 :: 44 :: rest)
  = csv_read FieldStart [] (fields ++ [f]) records rest.
Proof. intros [-> | ->]; cbn; rewrite read_quoted; done. Qed.

(** The last quoted field of a record and the line feed after it. *)
Lemma read_field_lf st (f : str) fields records (rest : str) :
  st = RecordStart ∨ st = FieldStart →
  csv_read st [] fields records (34 :: replace_char 34 (dq ++ dq) f ++ 34 :: LF :: rest)
  = csv_read RecordStart [] [] (records ++ [fields ++ [f]]) rest.
Proof. intros [-> | ->]; cbn; rewrite read_quoted; done. Qed.

(** The last quoted field of a text that ends without a line feed. *)
Lemma read_field_end st (f : str) fields records :
  st = RecordStart ∨ st = FieldStart →
  csv_read st [] fields records (34 :: replace_char 34 (dq ++ dq) f ++ [34])
  = Some (records ++ [fields ++ [f]]).
Proof. intros [-> | ->]; cbn; rewrite read_quoted; done. Qed.

Lemma dec_digits n c : c ∈ dec n → 48 ≤ c ≤ 57.
Proof.
  unfold dec. generalize (N.to_uint n). intros u.
  induction u; cbn; intros H; try (by apply elem_of_nil in H);
    apply elem_of_cons in H as [->|H]; try lia; by apply IHu.
Qed.

Lemma zfill_digits w n c : c ∈ zfill w (dec n) → 48 ≤ c ≤ 57.
Proof.
  unfold zfill. intros [H|H]%elem_of_app.
  - apply elem_of_replicate_inv in H. lia.
  - by apply dec_digits in H.
Qed.

Lemma strftime_no_quote t : 34 ∉ slice_to (-3) (strftime_date_time t).
Proof.
  intros H. unfold slice_to in H. apply elem_of_take in H as (i & H & _).
  apply list_elem_of_lookup_2 in H. unfold strftime_date_time in H.
  repeat (apply elem_of_app in H as [H|H];
          [first [apply zfill_digits in H; lia
                 | by repeat (apply elem_of_cons in H as [H|H]; [done|]);
                      apply elem_of_nil in H]|]).
  apply zfill_digits in H. lia.
Qed.

Lemma level_name_values (self : LogEntry) :
  get_level_name self
    ∈ py <$> ["ERROR"; "WARN"; "INFO"; "DEBUG"; "VERBOSE"; "WIFIMANAGER";
              "GENERIC"; "UNKNOWN"]%string.
Proof.
  unfold get_level_name.
  destruct (level self) as [l|]; cbn [mbind option_bind].
  - destruct (decide (l ∈ vocabulary)) as [Hl|Hl].
    + unfold vocabulary in Hl.
      repeat (apply elem_of_cons in Hl as [->|Hl];
              [apply (bool_decide_unpack _); vm_compute; exact I|]).
      by apply elem_of_nil in Hl.
    + rewrite unregistered_level by done.
      apply (bool_decide_unpack _). vm_compute. exact I.
  - apply (bool_decide_unpack _). vm_compute. exact I.
Qed.

Lemma level_name_no_quote (self : LogEntry) : 34 ∉ get_level_name self.
Proof.
  pose proof (level_name_values self) as H. revert H.
  generalize (get_level_name self). intros s H.
  repeat (apply elem_of_cons in H as [->|H];
          [apply (bool_decide_unpack _); vm_compute; exact I|]).
  by apply elem_of_nil in H.
Qed.

Lemma read_plain_field_comma st (f : str) fields records (rest : str) :
  st = RecordStart ∨ st = FieldStart → 34 ∉ f →
  csv_read st [] fields records (34 :: f ++ 34 :: 44 :: rest)
  = csv_read FieldStart [] (fields ++ [f]) records rest.
Proof.
  intros Hst Hf. rewrite <- (replace_char_id 34 (dq ++ dq) f Hf) at 1.
  by apply read_field_comma.
Qed.

Ltac csv_normalise :=
  unfold dq; change (py ",") with [44]; rewrite <- ?app_assoc; cbn [app].

(** One record, followed by a line feed or ending the text. *)
Lemma read_record incl (entry : LogEntry) (m : str) :
  message entry = Some m →
  ∃ record,
    format_entry_csv incl entry = Some record
    ∧ (∀ records rest,
         csv_read RecordStart [] [] records (record ++ LF :: rest)
         = csv_read RecordStart [] [] (records ++ [csv_fields incl entry m]) rest)
    ∧ csv_parse record = Some [csv_fields incl entry m].
Proof.
  intros Hm. unfold format_entry_csv, csv_parse, csv_fields. rewrite Hm.
  cbn [fmap option_fmap option_map mbind option_bind].
  pose proof (strftime_no_quote (timestamp entry)) as Hts.
  pose proof (level_name_no_quote entry) as Hname.
  destruct incl; eexists; (split; [reflexivity|]); split.
  - intros records rest. csv_normalise.
    rewrite read_plain_field_comma by auto.
    rewrite read_plain_field_comma by auto.
    rewrite read_field_lf by auto. done.
  - csv_normalise.
    rewrite read_plain_field_comma by auto.
    rewrite read_plain_field_comma by auto.
    rewrite read_field_end by auto. done.
  - intros records rest. csv_normalise.
    rewrite read_plain_field_comma by auto.
    rewrite read_field_lf by auto. done.
  - csv_normalise.
    rewrite read_plain_field_comma by auto.
    rewrite read_field_end by auto. done.
Qed.

(** The names of the columns, as the reader returns the header. *)
Lemma read_header incl (rest : str) :
  csv_read RecordStart [] [] [] (csv_header incl ++ LF :: rest)
  = csv_read RecordStart [] [] 
      [if incl then [py "Timestamp"; py "Level"; py "Message"]
       else [py "Level"; py "Message"]] rest.
Proof. destruct incl; reflexivity. Qed.

Lemma read_records incl (entries : list LogEntry) :
  Forall (λ entry, is_Some (message entry)) entries →
  ∃ lines,
    mapM (format_entry_csv incl) entries = Some lines
    ∧ length lines = length entries
    ∧ ∀ records,
        csv_read RecordStart [] [] records (concat ((λ r, r ++ [LF]) <$> lines))
        = Some (records
                ++ ((λ entry, csv_fields incl entry (default [] (message entry)))
                      <$> entries)).
Proof.
  induction 1 as [|entry entries [m Hm] _ (lines & Hlines & Hlen & IH)].
  - exists []. repeat split; try done. intros records. cbn. by rewrite app_nil_r.
  - destruct (read_record incl entry m Hm) as (record & Hrec & Hread & _).
    exists (record :: lines). split; [|split].
    + cbn. rewrite Hrec. cbn. rewrite Hlines. done.
    + cbn. by rewrite Hlen.
    + intros records. rewrite fmap_cons, concat_cons, <- !app_assoc.
      cbn [app]. rewrite Hread, IH, fmap_cons, Hm. cbn [default].
      by rewrite <- app_assoc.
Qed.

Lemma constructed_message raw ts lvl msg :
  is_Some (message (LogEntry_init raw ts lvl msg)).
Proof.
  unfold LogEntry_init.
  set (self := mkLogEntry (strip raw) ts lvl msg false).
  destruct (marker_cases (raw_data self)) as [Hs|[Hw|[Hs Hw]]].
  - destruct Hs as (d & rest & Hd & Hraw). cbn in Hraw.
    by rewrite (parse_severity self d rest Hd Hraw).
  - destruct Hw as (rest & Hraw). cbn in Hraw.
    by rewrite (parse_wm self rest Hraw).
  - by rewrite (parse_generic self Hs Hw).
Qed.

(** ** The classifier on sample lines *)

Example classify_wm :
  let e := entry_of "*wm AP started" in
  level e = Some (py "wm") ∧ get_level_name e = py "WIFIMANAGER"
  ∧ message e = Some (py "AP started") ∧ parsed e = true.
Proof. vm_compute. done. Qed.

Example classify_generic :
  let e := entry_of "boot complete" in
  level e = Some (py "verbose") ∧ get_level_name e = py "GENERIC"
  ∧ message e = Some (py "boot complete") ∧ parsed e = false.
Proof. vm_compute. done. Qed.

(** The constructor trims before it classifies: blanks around the line
    neither hide a marker nor reach the message. *)
Example classify_trims :
  let e := entry_of "   [0]  brown-out   " in
  raw_data e = py "[0]  brown-out" ∧ level e = Some (py "0")
  ∧ get_level_name e = py "ERROR" ∧ message e = Some (py "brown-out").
Proof. vm_compute. done. Qed.

(** The star of [\s] also takes a no-break space (code point 160). *)
Example classify_unicode_space :
  message (LogEntry_init [91; 51; 93; 160; 32; 120] ts0 None None) = Some [120].
Proof. vm_compute. done. Qed.

(** * The claims of the specification *)

(** ** Classification *)

(** C1, as the specification states it, fails: the constructor trims the
    input before it classifies, so the message of a marked line that ends in
    whitespace is shorter than the rest of the input line with leading
    whitespace stripped. *)
Lemma C1_counterexample :
  ¬ (∀ raw ts, LF ∉ raw →
       let e := LogEntry_init raw ts None None in
       (∀ d rest, 48 ≤ d ≤ 52 → raw = py "[" ++ d :: py "]" ++ rest →
          level e = Some [d] ∧ message e = Some (lstrip rest))
       ∧ (∀ rest, ¬ starts_with_severity raw → raw = py "*wm" ++ rest →
          level e = Some (py "wm") ∧ message e = Some (lstrip rest))).
Proof.
  intros H. destruct (H (py "[2] ready  ") ts0) as (Hsev & _).
  { apply (bool_decide_unpack _). vm_compute. exact I. }
  destruct (Hsev 50 (py " ready  ")) as (_ & Hm); [lia|reflexivity|].
  vm_compute in Hm. discriminate Hm.
Qed.

(** C1, amended.  Classification follows strict precedence on the trimmed
    line.  The constructor trims the input (leading and trailing whitespace
    removed) and [_parse_log] reads the result, the entry's [raw_data], a
    line: it holds no line feed.  For every such line and every timestamp:
    if the line read starts with [[d]], [d] a digit 0 to 4, the category is
    [d], whose registered priority is the digit's value, and the message is
    the rest of the line read with leading whitespace stripped; otherwise,
    if it starts with [*wm], the category is [wm] and the message is the
    rest with leading whitespace stripped.  The timestamp is kept.
    Classifying ["[2] system ready"] yields category [2], named INFO, with
    message ["system ready"]. *)
Theorem C1_classification_precedence :
  (∀ self : LogEntry, LF ∉ raw_data self →
     let e := _parse_log self in
     (∀ d rest, 48 ≤ d ≤ 52 → raw_data self = py "[" ++ d :: py "]" ++ rest →
        level e = Some [d]
        ∧ priority <$> LOG_LEVELS !! [d] = Some (Z.of_N d - 48)%Z
        ∧ message e = Some (lstrip rest) ∧ parsed e = true)
     ∧ (∀ rest, ¬ starts_with_severity (raw_data self) →
        raw_data self = py "*wm" ++ rest →
        level e = Some (py "wm") ∧ message e = Some (lstrip rest) ∧ parsed e = true)
     ∧ timestamp e = timestamp self ∧ raw_data e = raw_data self)
  ∧ (∀ raw ts lvl msg, LF ∉ strip raw →
       let e := LogEntry_init raw ts lvl msg in
       (∀ d rest, 48 ≤ d ≤ 52 → strip raw = py "[" ++ d :: py "]" ++ rest →
          level e = Some [d] ∧ message e = Some (lstrip rest) ∧ parsed e = true)
       ∧ (∀ rest, ¬ starts_with_severity (strip raw) →
          strip raw = py "*wm" ++ rest →
          level e = Some (py "wm") ∧ message e = Some (lstrip rest) ∧ parsed e = true)
       ∧ timestamp e = ts ∧ raw_data e = strip raw)
  ∧ (∀ ts lvl msg,
       let e := LogEntry_init (py "[2] system ready") ts lvl msg in
       level e = Some (py "2") ∧ get_level_name e = py "INFO"
       ∧ message e = Some (py "system ready") ∧ parsed e = true ∧ timestamp e = ts).
Proof.
  assert (Hself : ∀ self : LogEntry, LF ∉ raw_data self →
     let e := _parse_log self in
     (∀ d rest, 48 ≤ d ≤ 52 → raw_data self = py "[" ++ d :: py "]" ++ rest →
        level e = Some [d]
        ∧ priority <$> LOG_LEVELS !! [d] = Some (Z.of_N d - 48)%Z
        ∧ message e = Some (lstrip rest) ∧ parsed e = true)
     ∧ (∀ rest, ¬ starts_with_severity (raw_data self) →
        raw_data self = py "*wm" ++ rest →
        level e = Some (py "wm") ∧ message e = Some (lstrip rest) ∧ parsed e = true)
     ∧ timestamp e = timestamp self ∧ raw_data e = raw_data self).
  { intros self HLF e. split; [|split].
    - intros d rest Hd Hraw. cbn in Hraw. subst e.
      rewrite (parse_severity self d rest Hd Hraw). cbn [level message parsed].
      destruct (severity_registered d Hd) as (info & -> & Hp).
      rewrite first_line_id.
      + cbn [fmap option_fmap option_map]. by rewrite Hp.
      + apply not_elem_of_lstrip. rewrite Hraw in HLF.
        rewrite !not_elem_of_cons in HLF. tauto.
    - intros rest _ Hraw. cbn in Hraw. subst e.
      rewrite (parse_wm self rest Hraw). cbn [level message parsed].
      rewrite first_line_id; [done|].
      apply not_elem_of_lstrip. rewrite Hraw in HLF.
      rewrite !not_elem_of_cons in HLF. tauto.
    - subst e. unfold _parse_log.
      destruct (re_match level_pattern (raw_data self)); [done|].
      destruct (re_match wm_pattern (raw_data self)); done. }
  split; [exact Hself|]. split.
  - intros raw ts lvl msg HLF e.
    destruct (Hself (mkLogEntry (strip raw) ts lvl msg false) HLF)
      as (Hsev & Hwm & Hts & Hraw).
    split; [|split; [|split]].
    + intros d rest Hd E. destruct (Hsev d rest Hd E) as (? & _ & ? & ?). done.
    + exact Hwm.
    + exact Hts.
    + exact Hraw.
  - intros ts lvl msg. vm_compute. done.
Qed.

Lemma C1_classification_precedence_witness :
  let raw := py "  [3]   heap low  " in
  (LF ∉ strip raw)
  ∧ level (LogEntry_init raw ts0 None None) = Some (py "3")
  ∧ message (LogEntry_init raw ts0 None None) = Some (py "heap low").
Proof.
  intros raw.
  assert (HLF : LF ∉ strip raw).
  { apply (bool_decide_unpack _). vm_compute. exact I. }
  split; [exact HLF|].
  destruct (proj1 (proj2 C1_classification_precedence) raw ts0 None None HLF)
    as (Hsev & _ & _).
  destruct (Hsev 51 (py "   heap low")) as (Hl & Hm & _).
  - lia.
  - reflexivity.
  - split; [exact Hl | exact Hm].
Defined.

(** C2, as the specification states it, fails: the constructor trims the
    input before it classifies, so the message of an unmarked line is the
    trimmed line, not the input line. *)
Lemma C2_counterexample :
  ¬ (∀ raw ts, ¬ starts_with_severity raw → ¬ starts_with_wm raw →
       let e := LogEntry_init raw ts None None in
       level e = Some (py "verbose") ∧ parsed e = false ∧ message e = Some raw).
Proof.
  intros H. destruct (H (py "  boot  ") ts0) as (_ & _ & Hm).
  - by apply not_severity_first.
  - by apply not_wm_first.
  - vm_compute in Hm. discriminate Hm.
Qed.

(** C2, amended.  For every input line whose trimmed form (leading and
    trailing whitespace removed, the entry's [raw_data]) matches neither the
    severity marker nor the [*wm] marker, classification assigns the
    catch-all category, named GENERIC, sets [parsed] to false, and the
    message is the trimmed line; it is the input line verbatim exactly when
    trimming leaves the input unchanged. *)
Theorem C2_generic_fallback (raw : str) (ts : datetime) (lvl msg : option str) :
  ¬ starts_with_severity (strip raw) → ¬ starts_with_wm (strip raw) →
  let e := LogEntry_init raw ts lvl msg in
  level e = Some (py "verbose") ∧ get_level_name e = py "GENERIC"
  ∧ parsed e = false
  ∧ raw_data e = strip raw ∧ message e = Some (strip raw)
  ∧ (message e = Some raw ↔ strip raw = raw).
Proof.
  intros Hs Hw e. subst e. unfold LogEntry_init.
  rewrite parse_generic by done. unfold get_level_name.
  cbn [level message parsed raw_data].
  repeat split; try done; congruence.
Qed.

Lemma C2_generic_fallback_witness :
  let e := LogEntry_init (py "  boot complete ") ts0 None None in
  level e = Some (py "verbose") ∧ parsed e = false
  ∧ message e = Some (py "boot complete").
Proof.
  assert (Hs : ¬ starts_with_severity (strip (py "  boot complete "))).
  { by apply not_severity_first. }
  assert (Hw : ¬ starts_with_wm (strip (py "  boot complete "))).
  { by apply not_wm_first. }
  destruct (C2_generic_fallback (py "  boot complete ") ts0 None None Hs Hw)
    as (Hl & _ & Hp & _ & Hm & _).
  split; [exact Hl|]. split; [exact Hp|]. exact Hm.
Defined.

(** C3, as the specification states it, fails: the match is anchored at
    the start of the trimmed line, not of the input line, so a marker that
    follows leading whitespace is matched although the input line does not
    start with it. *)
Lemma C3_counterexample :
  ¬ (∀ raw ts, LF ∉ raw →
       parsed (LogEntry_init raw ts None None) = true
       ↔ starts_with_severity raw ∨ starts_with_wm raw).
Proof.
  intros H. destruct (H (py "  [2] x") ts0) as [Hp _].
  { apply (bool_decide_unpack _). vm_compute. exact I. }
  destruct Hp as [Hs|Hw]; [reflexivity| |].
  - by apply (not_severity_first 32 (py " [2] x")).
  - by apply (not_wm_first 32 (py " [2] x")).
Qed.

(** C3, amended.  Marker matching is anchored at the start of the trimmed
    line, and exact.  [_parse_log] recognises the line it reads only by a
    marker at its very start: the entry is [parsed] exactly when that line
    starts with a severity marker or with [*wm], its level is the digit [d]
    exactly when the line starts with [[d]], and [wm] exactly when it starts
    with [*wm]; a line whose first character is neither [[] nor [*] is
    generic whatever markers it holds further on.  The markers are compared
    code point by code point, so [*WM], [[5]], [[ 2]] or a full-width digit
    are not markers.  The constructor applies this to the trimmed input, so
    a marker after leading whitespace only is matched, as in ["  [2] x"],
    and a line that is empty after trimming still yields an entry, with the
    empty message. *)
Theorem C3_anchored_exact_matching :
  (∀ self : LogEntry,
     let e := _parse_log self in
     (parsed e = true ↔
        starts_with_severity (raw_data self) ∨ starts_with_wm (raw_data self))
     ∧ (∀ d, 48 ≤ d ≤ 52 →
          (level e = Some [d] ↔ ∃ rest, raw_data self = py "[" ++ d :: py "]" ++ rest))
     ∧ (level e = Some (py "wm") ↔ starts_with_wm (raw_data self))
     ∧ (∀ c tail, raw_data self = c :: tail → c ≠ 91 → c ≠ 42 →
          level e = Some (py "verbose") ∧ message e = Some (c :: tail)
          ∧ parsed e = false))
  ∧ (∀ raw ts lvl msg,
       parsed (LogEntry_init raw ts lvl msg) = true ↔
       starts_with_severity (strip raw) ∨ starts_with_wm (strip raw))
  ∧ (∀ raw ts lvl msg, strip raw = [] →
       let e := LogEntry_init raw ts lvl msg in
       message e = Some [] ∧ raw_data e = []
       ∧ level e = Some (py "verbose") ∧ parsed e = false)
  ∧ (∀ raw ts,
       raw ∈ [py "boot [2] ready"; py "x *wm AP started"; py "*WM AP started";
              py "*Wm x"; py "[5] x"; py "[ 2] x"; py "[2 ] x"; py "[22] x";
              [91; 65298; 93; 32; 120]] →
       let e := LogEntry_init raw ts None None in
       level e = Some (py "verbose") ∧ message e = Some raw ∧ parsed e = false)
  ∧ (∀ ts,
       let e := LogEntry_init (py "  [2] x") ts None None in
       parsed e = true ∧ level e = Some (py "2") ∧ message e = Some (py "x")).
Proof.
  split; [|split; [|split; [|split]]].
  - intros self e. subst e.
    destruct (marker_cases (raw_data self)) as [Hs|[Hw|[Hs Hw]]].
    + pose proof (severity_not_wm _ Hs) as Hnw.
      destruct Hs as (d & rest & Hd & Hraw). cbn in Hraw.
      rewrite (parse_severity self d rest Hd Hraw). cbn [level message parsed].
      split; [|split; [|split]].
      * split; [|done]. intros _. left. by exists d, rest.
      * intros d' Hd'. split.
        -- intros [= ->]. by exists rest.
        -- intros (rest' & E). cbn in E. rewrite Hraw in E. by simplify_eq.
      * split; [done|]. intros Hw. by destruct Hnw.
      * intros c tail E ? ?. rewrite Hraw in E. by simplify_eq.
    + assert (Hns : ¬ starts_with_severity (raw_data self)).
      { intros Hs. by apply (severity_not_wm _ Hs). }
      pose proof Hw as (rest & Hraw). cbn in Hraw.
      rewrite (parse_wm self rest Hraw). cbn [level message parsed].
      split; [|split; [|split]].
      * split; [|done]. intros _. by right.
      * intros d' Hd'. split; [done|].
        intros (rest' & E). destruct Hns. by exists d', rest'.
      * done.
      * intros c tail E ? ?. rewrite Hraw in E. by simplify_eq.
    + rewrite (parse_generic self Hs Hw). cbn [level message parsed].
      split; [|split; [|split]].
      * split; [done|]. intros [?|?]; done.
      * intros d' Hd'. split.
        -- intros E. vm_compute in E. congruence.
        -- intros (rest' & E). destruct Hs. by exists d', rest'.
      * split; [|done]. intros E. vm_compute in E. congruence.
      * intros c tail E _ _. by rewrite E.
  - intros raw ts lvl msg. unfold LogEntry_init.
    set (self := mkLogEntry (strip raw) ts lvl msg false).
    change (strip raw) with (raw_data self).
    destruct (marker_cases (raw_data self)) as [Hs|[Hw|[Hs Hw]]].
    + pose proof Hs as (d & rest & Hd & Hraw). cbn in Hraw.
      rewrite (parse_severity self d rest Hd Hraw). cbn [parsed]. tauto.
    + pose proof Hw as (rest & Hraw). cbn in Hraw.
      rewrite (parse_wm self rest Hraw). cbn [parsed]. tauto.
    + rewrite (parse_generic self Hs Hw). cbn [parsed].
      split; [done|tauto].
  - intros raw ts lvl msg Hraw e. subst e. unfold LogEntry_init. rewrite Hraw.
    done.
  - intros raw ts Hin e. subst e.
    repeat (apply elem_of_cons in Hin as [->|Hin]; [by vm_compute|]).
    by apply elem_of_nil in Hin.
  - intros ts. by vm_compute.
Qed.

Lemma C3_anchored_exact_matching_witness :
  let e := LogEntry_init (py "  ") ts0 None None in
  strip (py "  ") = [] ∧ message e = Some [] ∧ level e = Some (py "verbose").
Proof.
  assert (H : strip (py "  ") = []) by reflexivity.
  destruct (proj1 (proj2 (proj2 C3_anchored_exact_matching)) (py "  ") ts0 None None H)
    as (Hm & _ & Hl & _).
  split; [exact H|]. split; [exact Hm | exact Hl].
Defined.

(** ** Level registry *)

(** C9. The registry lookups are total.  For every entry, whatever its
    level attribute (a tag of the vocabulary, any other string, or [None]),
    [get_level_name] and [get_level_color] return a value: the registered name
    and color for the seven tags, and the defaults ["UNKNOWN"] and
    ["#FFFFFF"] for everything else. *)
Theorem C9_level_lookup_total (self : LogEntry) :
  ((∀ l, level self = Some l → l ∉ vocabulary) →
     get_level_name self = py "UNKNOWN" ∧ get_level_color self = py "#FFFFFF")
  ∧ (∀ l, level self = Some l → l ∈ vocabulary →
       ∃ info, LOG_LEVELS !! l = Some info
               ∧ get_level_name self = name info
               ∧ get_level_color self = color info)
  ∧ (get_level_name self
       ∈ py <$> ["ERROR"; "WARN"; "INFO"; "DEBUG"; "VERBOSE"; "WIFIMANAGER";
                 "GENERIC"; "UNKNOWN"]%string).
Proof.
  unfold get_level_name, get_level_color.
  assert (Hvoc : ∀ l, l ∈ vocabulary → ∃ info, LOG_LEVELS !! l = Some info).
  { intros l Hl. unfold vocabulary in Hl.
    repeat (apply elem_of_cons in Hl as [->|Hl];
            [eexists; vm_compute; reflexivity|]).
    by apply elem_of_nil in Hl. }
  split; [|split].
  - intros H. destruct (level self) as [l|]; [|done].
    cbn [mbind option_bind]. rewrite unregistered_level; [done|]. by apply H.
  - intros l -> Hl. destruct (Hvoc l Hl) as (info & Hinfo).
    exists info. cbn [mbind option_bind]. rewrite Hinfo. done.
  - fold (get_level_name self). apply level_name_values.
Qed.

Lemma C9_level_lookup_total_witness :
  let e := mkLogEntry (py "x") ts0 (Some (py "trace")) None false in
  get_level_name e = py "UNKNOWN" ∧ get_level_color e = py "#FFFFFF".
Proof.
  intros e. apply (proj1 (C9_level_lookup_total e)).
  intros l [= <-]. apply (bool_decide_unpack _). vm_compute. exact I.
Defined.

(** ** Constructor *)

(** C10. The constructor's [level] and [message] arguments never reach the
    entry: [__init__] stores them and [_parse_log] overwrites both, so the
    entry depends on the raw text and the timestamp alone.  A sent line
    echoed as [">> " + data] with [level='2'] is generic for every [data],
    and [">> data"] in particular is GENERIC with the whole line as message. *)
Theorem C10_constructor_arguments_overwritten :
  (∀ raw ts lvl msg, LogEntry_init raw ts lvl msg = LogEntry_init raw ts None None)
  ∧ (∀ data now,
       let e := sent_entry data now in
       level e = Some (py "verbose") ∧ get_level_name e = py "GENERIC"
       ∧ parsed e = false)
  ∧ (∀ now,
       let e := LogEntry_init (py ">> data") now (Some (py "2")) None in
       e = sent_entry (py "data") now
       ∧ level e = Some (py "verbose") ∧ get_level_name e = py "GENERIC"
       ∧ message e = Some (py ">> data") ∧ parsed e = false).
Proof.
  split; [|split].
  - intros raw ts lvl msg. apply parse_ignores_attributes.
  - intros data now e. subst e. unfold sent_entry, LogEntry_init.
    destruct (strip_cons_keep 62 (py "> " ++ data)) as [t Ht]; [done|].
    change (py ">> " ++ data) with (62 :: (py "> " ++ data)).
    rewrite parse_generic.
    + done.
    + cbn [raw_data]. rewrite Ht. by apply not_severity_first.
    + cbn [raw_data]. rewrite Ht. by apply not_wm_first.
  - intros now. vm_compute. done.
Qed.

(** ** Entry store *)

(** C4. Bounded retention.  With a positive [max_lines] (the settings
    dialog offers 1000 to 100000, the widget starts at 10000): after any
    append the store holds at most [max_lines] entries, and what it holds is
    a suffix of the old store followed by the new entry, so only the oldest
    entries leave, from the front.  After any non-empty sequence of appends
    the store is the last [max_lines] entries of everything stored and
    appended, in the original order.  Appending 1001 entries to an empty
    store with [max_lines = 1000] leaves the last 1000 of them. *)
Theorem C4_bounded_retention (self : LogDisplayWidget) :
  (0 < max_lines self)%Z →
  (∀ entry,
     let after := add_log_entry self entry in
     (Z.of_nat (length (log_entries after)) ≤ max_lines self)%Z
     ∧ log_entries after `suffix_of` (log_entries self ++ [entry])
     ∧ max_lines after = max_lines self)
  ∧ (∀ entries, entries ≠ [] →
       let after := foldl add_log_entry self entries in
       (Z.of_nat (length (log_entries after)) ≤ max_lines self)%Z
       ∧ log_entries after
         = last_n (Z.to_nat (max_lines self)) (log_entries self ++ entries)
       ∧ log_entries after `suffix_of` (log_entries self ++ entries))
  ∧ (max_lines self = 1000%Z → log_entries self = [] →
     ∀ entries, length entries = 1001%nat →
       let after := foldl add_log_entry self entries in
       log_entries after = drop 1 entries
       ∧ length (log_entries after) = 1000%nat).
Proof.
  intros Hm.
  assert (Hseq : ∀ entries, entries ≠ [] →
            log_entries (foldl add_log_entry self entries)
            = last_n (Z.to_nat (max_lines self)) (log_entries self ++ entries)).
  { intros [|e es] Hne; [done|]. by apply appends_log_entries. }
  split; [|split].
  - intros entry after. subst after.
    rewrite add_log_entry_log_entries by done. rewrite length_last_n.
    split; [lia|]. split; [apply last_n_suffix|done].
  - intros entries Hne after. subst after. rewrite (Hseq entries Hne).
    rewrite length_last_n. split; [lia|]. split; [done|apply last_n_suffix].
  - intros H1000 Hempty entries Hlen after. subst after.
    assert (Hne : entries ≠ []) by (intros ->; done).
    rewrite (Hseq entries Hne), H1000, Hempty. cbn [app].
    unfold last_n. rewrite Hlen.
    replace (1001 - Z.to_nat 1000)%nat with 1%nat by lia.
    split; [done|]. rewrite length_drop. lia.
Qed.

Lemma C4_bounded_retention_witness :
  let self := mkLogDisplayWidget [] [] (replicate 7 true) 2 in
  let after :=
    foldl add_log_entry self [entry_of "[0] a"; entry_of "[1] b"; entry_of "c"] in
  (0 < max_lines self)%Z
  ∧ log_entries after = [entry_of "[1] b"; entry_of "c"].
Proof.
  intros self after.
  assert (Hm : (0 < max_lines self)%Z) by (cbn; lia).
  split; [exact Hm|].
  destruct (C4_bounded_retention self Hm) as (_ & Hseq & _).
  destruct (Hseq [entry_of "[0] a"; entry_of "[1] b"; entry_of "c"]) as (_ & Hlast & _).
  - discriminate.
  - exact Hlast.
Defined.

(** C5. The size trim.  [update_statistics] sums the lengths of [raw_data]
    over the store and compares the sum, divided by 1024, with the ceiling in
    MB times 1024: the check fires exactly when the sum exceeds the ceiling
    in bytes.  When it fires and the store holds more than 1000 entries, the
    store becomes its 1000 most recent entries; when the store holds 1000
    entries or fewer, or the check does not fire, nothing changes.  The size
    trim, [trim_logs] on its own and the count trim of [add_log_entry] all
    leave a suffix of the store: they drop oldest entries first and neither
    reorder nor change the entries that stay. *)
Theorem C5_size_trim :
  (∀ self : MainWindow,
     let entries := log_entries (log_display self) in
     let after := log_entries (log_display (update_statistics self)) in
     ((inject_Z (log_file_size_mb self * 1024) < size_kb entries)%Q
        ↔ (log_file_size_mb self * 1024 * 1024 < total_size entries)%Z)
     ∧ ((log_file_size_mb self * 1024 * 1024 < total_size entries)%Z →
        (1000 < length entries)%nat →
        after = last_n 1000 entries ∧ length after = 1000%nat)
     ∧ ((length entries ≤ 1000)%nat → update_statistics self = self)
     ∧ ((total_size entries ≤ log_file_size_mb self * 1024 * 1024)%Z →
        update_statistics self = self)
     ∧ after `suffix_of` entries
     ∧ log_entries (log_display (trim_logs self)) `suffix_of` entries)
  ∧ (∀ (w : LogDisplayWidget) (entry : LogEntry),
       log_entries (add_log_entry w entry) `suffix_of` (log_entries w ++ [entry])).
Proof.
  split; [|apply add_log_entry_suffix].
  intros self entries after. subst entries after.
  assert (Htrim : log_entries (log_display (trim_logs self))
                  `suffix_of` log_entries (log_display self)).
  { unfold trim_logs, get_all_entries. destruct (_ <? _)%nat; [|done].
    cbn [log_display]. rewrite apply_filters_log_entries. apply slice_from_suffix. }
  split; [|split; [|split; [|split; [|split]]]].
  - unfold size_kb, Qlt, inject_Z. cbn [Qnum Qden]. lia.
  - intros Hsize Hlen. unfold update_statistics, get_all_entries.
    rewrite (proj2 (size_check_spec _ _) Hsize).
    unfold trim_logs, get_all_entries.
    rewrite (proj2 (Nat.ltb_lt _ _) Hlen). cbn [log_display].
    rewrite apply_filters_log_entries. cbn [log_entries].
    change (-1000)%Z with (- Z.of_nat 1000)%Z. rewrite slice_from_neg by lia.
    split; [done|]. rewrite length_last_n. lia.
  - intros Hlen. unfold update_statistics, trim_logs, get_all_entries.
    rewrite (proj2 (Nat.ltb_ge _ _) Hlen). by destruct (negb _).
  - intros Hsize. unfold update_statistics, get_all_entries.
    destruct (negb _) eqn:E; [|done].
    apply size_check_spec in E. lia.
  - unfold update_statistics. destruct (negb _); [exact Htrim|done].
  - exact Htrim.
Qed.

Lemma C5_size_trim_witness :
  let entry := LogEntry_init (replicate 1100 120) ts0 None None in
  let store := replicate 1001 entry in
  let self := mkMainWindow (mkLogDisplayWidget store store (replicate 7 true) 10000) 1 in
  log_entries (log_display (update_statistics self)) = last_n 1000 store
  ∧ length (log_entries (log_display (update_statistics self))) = 1000%nat.
Proof.
  intros entry store self.
  apply (proj1 (proj2 (proj1 C5_size_trim self))).
  - vm_compute. reflexivity.
  - apply Nat.ltb_lt. vm_compute. reflexivity.
Defined.

(** ** Filter view *)

(** C6. The filter view.  For every store whose entries carry a tag of the
    vocabulary (every constructed entry does) and every filter set, of seven
    booleans or any other length, the view [apply_filters] computes is the
    store filtered, in order, by the boolean at the registry ordinal of each
    entry's category: an entry is in the view if and only if it is in the
    store and that boolean is true.  The view is a subsequence of the store,
    depends on the store and the filter set alone, and computing it changes
    neither of them. *)
Theorem C6_filter_view (self : LogDisplayWidget) :
  Forall (λ entry, ∃ l, level entry = Some l ∧ l ∈ vocabulary) (log_entries self) →
  let view := filtered_entries (apply_filters self) in
  view = List.filter (enabled (level_filter self)) (log_entries self)
  ∧ (∀ entry, entry ∈ view ↔
       entry ∈ log_entries self
       ∧ ∃ i, ordinal entry = Some i ∧ level_filter self !! i = Some true)
  ∧ view `sublist_of` log_entries self
  ∧ (∀ other, log_entries other = log_entries self →
       level_filter other = level_filter self →
       filtered_entries (apply_filters other) = view)
  ∧ log_entries (apply_filters self) = log_entries self
  ∧ level_filter (apply_filters self) = level_filter self.
Proof.
  intros Hvoc view.
  assert (Hview : view = List.filter (enabled (level_filter self)) (log_entries self)).
  { subst view. rewrite apply_filters_filtered. apply list_filter_ext_in.
    intros e He. rewrite Forall_forall in Hvoc.
    destruct (Hvoc e He) as (l & Hl & Hin). by apply (passes_enabled _ e l). }
  split; [exact Hview|]. split; [|split; [|split; [|done]]].
  - intros entry. rewrite Hview, !list_elem_of_In, filter_In.
    unfold enabled. destruct (ordinal entry) as [i|].
    + rewrite bool_decide_eq_true. split.
      * intros [? ?]. split; [done|]. by exists i.
      * intros [? (j & [= <-] & ?)]. done.
    + split; [intros [_ ?]; done|]. intros [_ (j & ? & _)]. done.
  - rewrite Hview. apply list_filter_sublist.
  - intros other Hstore Hflt. subst view.
    rewrite !apply_filters_filtered. by rewrite Hstore, Hflt.
Qed.

Lemma constructed_in_vocabulary raw ts lvl msg :
  ∃ l, level (LogEntry_init raw ts lvl msg) = Some l ∧ l ∈ vocabulary.
Proof. apply parse_in_vocabulary. Qed.

Lemma C6_filter_view_witness :
  let store := [entry_of "[0] fault"; entry_of "boot"; entry_of "*wm AP"; entry_of "[0] halt"] in
  let self := mkLogDisplayWidget store [] [true; true; true; true; true; false; false] 10000 in
  filtered_entries (apply_filters self) = [entry_of "[0] fault"; entry_of "[0] halt"].
Proof.
  intros store self.
  assert (Hvoc : Forall (λ entry, ∃ l, level entry = Some l ∧ l ∈ vocabulary)
                        (log_entries self)).
  { repeat constructor; apply constructed_in_vocabulary. }
  destruct (C6_filter_view self Hvoc) as (Hview & _).
  rewrite Hview. vm_compute. reflexivity.
Defined.

(** C7. The view as a subsequence.  For every store and every filter set
    the view is a subsequence of the store, in the store's order; with the
    seven booleans all true the view is the store, and with all of them
    false (whatever their number) the view is empty. *)
Theorem C7_filter_view_algebra (self : LogDisplayWidget) :
  filtered_entries (apply_filters self) `sublist_of` log_entries self
  ∧ (level_filter self = replicate 7 true →
     filtered_entries (apply_filters self) = log_entries self)
  ∧ (level_filter self = replicate 7 false →
     filtered_entries (apply_filters self) = [])
  ∧ (Forall (λ b, b = false) (level_filter self) →
     filtered_entries (apply_filters self) = []).
Proof.
  rewrite apply_filters_filtered.
  assert (Hfalse : Forall (λ b, b = false) (level_filter self) →
            List.filter (passes (level_filter self)) (log_entries self) = []).
  { intros Hall. apply list_filter_none. intros e _. unfold passes.
    destruct (_ <? _)%nat; [|done].
    destruct (level_filter self !! level_idx e) as [b|] eqn:Hb; [|done].
    rewrite Forall_forall in Hall. apply Hall. by eapply list_elem_of_lookup_2. }
  split; [apply list_filter_sublist|]. split; [|split; [|exact Hfalse]].
  - intros ->. apply list_filter_all. intros e _. unfold passes.
    pose proof (level_idx_bound e) as Hi. rewrite length_replicate.
    rewrite (proj2 (Nat.ltb_lt _ _) Hi). by rewrite lookup_replicate_2.
  - intros H. apply Hfalse. rewrite H. by apply Forall_replicate.
Qed.

Lemma C7_filter_view_algebra_witness :
  let store := [entry_of "[0] fault"; entry_of "boot"; entry_of "*wm AP"] in
  filtered_entries (apply_filters (mkLogDisplayWidget store [] (replicate 7 true) 10000))
  = store
  ∧ filtered_entries (apply_filters (mkLogDisplayWidget store store (replicate 7 false) 10000))
    = [].
Proof.
  intros store. split.
  - apply (proj1 (proj2 (C7_filter_view_algebra
             (mkLogDisplayWidget store [] (replicate 7 true) 10000)))).
    reflexivity.
  - apply (proj1 (proj2 (proj2 (C7_filter_view_algebra
             (mkLogDisplayWidget store store (replicate 7 false) 10000))))).
    reflexivity.
Defined.

(** ** CSV export *)

(** C8. CSV export.  For every entry with a message (every constructed
    entry has one), [format_entry] produces one record: the fields (the
    timestamp when timestamps are included, the display name, the message)
    each between double quotes, whatever they hold, joined by commas, with
    every double quote of the message doubled.  A CSV reader gets back
    exactly these fields from the record, so quotes, commas and line feeds in
    a message come through unchanged.  The header names the columns of the
    records, three with timestamps and two without, and the whole exported
    text reads back as the header row followed by one row per entry, in
    order. *)
Theorem C8_csv_export (include_timestamps : bool) :
  (∀ (entry : LogEntry) (m : str), message entry = Some m →
     ∃ record,
       format_entry_csv include_timestamps entry = Some record
       ∧ record = join (py ",") (csv_quote <$> csv_fields include_timestamps entry m)
       ∧ csv_parse record = Some [csv_fields include_timestamps entry m]
       ∧ length (csv_fields include_timestamps entry m)
         = length (csv_columns include_timestamps))
  ∧ (∀ raw ts lvl msg, is_Some (message (LogEntry_init raw ts lvl msg)))
  ∧ csv_header include_timestamps = join (py ",") (csv_columns include_timestamps)
  ∧ csv_parse (csv_header include_timestamps) = Some [csv_columns include_timestamps]
  ∧ (∀ entries : list LogEntry,
       Forall (λ entry, is_Some (message entry)) entries →
       ∃ text,
         export_logs_csv include_timestamps entries = Some text
         ∧ csv_parse text
           = Some (csv_columns include_timestamps
                   :: ((λ entry, csv_fields include_timestamps entry
                                   (default [] (message entry))) <$> entries))).
Proof.
  split; [|split; [|split; [|split]]].
  - intros entry m Hm.
    destruct (read_record include_timestamps entry m Hm) as (record & Hrec & _ & Hparse).
    exists record. split; [exact Hrec|]. split; [|split; [exact Hparse|]].
    + unfold format_entry_csv in Hrec. rewrite Hm in Hrec.
      cbn [fmap option_fmap option_map mbind option_bind] in Hrec.
      injection Hrec as <-. unfold csv_fields, csv_quote.
      destruct include_timestamps; cbn [fmap list_fmap join];
        rewrite ?(replace_char_id 34 _ _ (strftime_no_quote (timestamp entry))),
                ?(replace_char_id 34 _ _ (level_name_no_quote entry));
        by rewrite <- ?app_assoc.
    + by destruct include_timestamps.
  - apply constructed_message.
  - by destruct include_timestamps.
  - by destruct include_timestamps.
  - intros entries Hall.
    destruct (read_records include_timestamps entries Hall) as (lines & Hlines & _ & Hread).
    unfold export_logs_csv. rewrite Hlines. cbn [mbind option_bind].
    eexists. split; [reflexivity|].
    unfold csv_parse. cbn [app].
    rewrite read_header, Hread. by destruct include_timestamps.
Qed.

Lemma C8_csv_export_witness :
  let entry := LogEntry_init [91; 49; 93; 32; 115; 97; 121; 32; 34; 104; 105; 34;
                              44; 32; 98; 121; 101] ts0 None None in
  let m := [115; 97; 121; 32; 34; 104; 105; 34; 44; 32; 98; 121; 101] in
  message entry = Some m
  ∧ ∃ record,
      format_entry_csv true entry = Some record
      ∧ csv_parse record = Some [[py "2024-05-17 09:30:15.123"; py "WARN"; m]].
Proof.
  intros entry m.
  assert (Hm : message entry = Some m) by reflexivity.
  split; [exact Hm|].
  destruct (proj1 (C8_csv_export true) entry m Hm) as (record & Hrec & _ & Hparse & _).
  exists record. split; [exact Hrec|]. exact Hparse.
Defined.

(** * Further properties of the code *)

(** ** The line framing of the serial reader *)

Lemma frame_no_lf (x cur : str) : LF ∉ x → frame cur x = ([], cur ++ x).
Proof.
  revert cur. induction x as [|c x IH]; intros cur H; simpl.
  - by rewrite app_nil_r.
  - apply not_elem_of_cons in H as [Hc Hx].
    rewrite (proj2 (N.eqb_neq c LF)) by done.
    rewrite IH by done. by rewrite <- app_assoc.
Qed.

Lemma frame_app_lf (x y cur : str) :
  LF ∉ x →
  frame cur (x ++ LF :: y)
  = (emit_line (cur ++ x) ++ (frame [] y).1, (frame [] y).2).
Proof.
  revert cur. induction x as [|c x IH]; intros cur H; simpl.
  - by rewrite app_nil_r.
  - apply not_elem_of_cons in H as [Hc Hx].
    rewrite (proj2 (N.eqb_neq c LF)) by done.
    rewrite IH by done. by rewrite <- app_assoc.
Qed.

Lemma frame_app (s1 s2 cur : str) :
  frame cur (s1 ++ s2)
  = ((frame cur s1).1 ++ (frame (frame cur s1).2 s2).1,
     (frame (frame cur s1).2 s2).2).
Proof.
  revert cur. induction s1 as [|c s1 IH]; intros cur; simpl.
  - by destruct (frame cur s2).
  - destruct (c =? LF); [|apply IH].
    rewrite IH. simpl. by rewrite <- app_assoc.
Qed.

Lemma frame_rest_no_lf (s cur : str) : LF ∉ cur → LF ∉ (frame cur s).2.
Proof.
  revert cur. induction s as [|c s IH]; intros cur H; simpl; [done|].
  destruct (N.eqb_spec c LF) as [->|Hc]; simpl.
  - apply IH. apply not_elem_of_nil.
  - apply IH. rewrite not_elem_of_app, not_elem_of_cons. split; [done|].
    split; [done|apply not_elem_of_nil].
Qed.

Lemma frame_carry (cur s : str) : LF ∉ cur → frame [] (cur ++ s) = frame cur s.
Proof.
  intros H. rewrite frame_app, (frame_no_lf cur []) by done. simpl.
  by destruct (frame cur s).
Qed.

(** The split at the first line feed, as [take_while] and [drop_while]. *)
Lemma split_first_lf (s : str) :
  LF ∈ s →
  s = take_while is_dot s ++ LF :: drop 1 (drop_while is_dot s)
  ∧ LF ∉ take_while is_dot s.
Proof.
  induction s as [|c s IH]; intros H; [by apply elem_of_nil in H|].
  cbn [take_while drop_while]. destruct (is_dot c) eqn:Hd.
  - apply negb_true_iff, N.eqb_neq in Hd.
    apply elem_of_cons in H as [H|H]; [congruence|].
    destruct (IH H) as [E Hn]. split.
    + cbn [app]. by rewrite <- E.
    + rewrite not_elem_of_cons. split; [congruence|done].
  - apply negb_false_iff, N.eqb_eq in Hd. subst c.
    split; [done|apply not_elem_of_nil].
Qed.

(** With enough fuel the inner loop is the one-scan framing. *)
Lemma process_buffer_frame (fuel : nat) (s : str) :
  (length s < fuel)%nat → process_buffer fuel s = frame [] s.
Proof.
  revert s. induction fuel as [|fuel IH]; intros s Hlen; [lia|].
  cbn [process_buffer]. destruct (decide (LF ∈ s)) as [Hin|Hnot].
  - rewrite bool_decide_eq_true_2 by done.
    destruct (split_first_lf s Hin) as [E Hx].
    revert E Hx. generalize (take_while is_dot s) (drop 1 (drop_while is_dot s)).
    intros x y E Hx. subst s.
    rewrite IH by (rewrite length_app in Hlen; simpl in Hlen; lia).
    rewrite frame_app_lf by done. unfold emit_line. cbn [app].
    by destruct (bool_decide _).
  - rewrite bool_decide_eq_false_2 by done. by rewrite frame_no_lf.
Qed.

Lemma read_data_step_frame (buffer data : str) :
  read_data_step buffer data = frame [] (buffer ++ data).
Proof. unfold read_data_step. apply process_buffer_frame. lia. Qed.

Lemma head_drop_while {A} (p : A → bool) (l : list A) (x : A) :
  head (drop_while p l) = Some x → p x = false.
Proof.
  induction l as [|y l IH]; simpl; [done|].
  destruct (p y) eqn:Hy; [done|]. simpl. by intros [= <-].
Qed.

Lemma drop_while_id {A} (p : A → bool) (l : list A) :
  (∀ x, head l = Some x → p x = false) → drop_while p l = l.
Proof. destruct l as [|y l]; simpl; [done|]. intros H. by rewrite H. Qed.

Lemma rstrip_cr_elem_of c (l : str) : c ∈ rstrip_cr l → c ∈ l.
Proof.
  unfold rstrip_cr. rewrite elem_of_reverse. intros H.
  destruct (drop_while_suffix (λ c, c =? CR) (reverse l)) as [k Hk].
  apply elem_of_reverse. rewrite Hk. apply elem_of_app. by right.
Qed.

Lemma rstrip_cr_last (l : str) : last (rstrip_cr l) ≠ Some CR.
Proof.
  unfold rstrip_cr. rewrite last_reverse. intros H.
  apply head_drop_while in H. by rewrite N.eqb_refl in H.
Qed.

Lemma rstrip_cr_id (l : str) : last l ≠ Some CR → rstrip_cr l = l.
Proof.
  intros H. unfold rstrip_cr. rewrite drop_while_id; [apply reverse_involutive|].
  intros x Hx. rewrite head_reverse in Hx. apply N.eqb_neq. congruence.
Qed.

Lemma rstrip_cr_snoc (l : str) : rstrip_cr (l ++ [CR]) = rstrip_cr l.
Proof. unfold rstrip_cr. by rewrite reverse_app. Qed.

Lemma rstrip_cr_payload (l : str) :
  filter is_payload (rstrip_cr l) = filter is_payload l.
Proof.
  unfold rstrip_cr. rewrite filter_reverse.
  replace (filter is_payload l) with (reverse (filter is_payload (reverse l)))
    by (by rewrite <- filter_reverse, reverse_involutive).
  apply (f_equal reverse).
  induction (reverse l) as [|c k IH]; cbn [drop_while]; [done|].
  destruct (N.eqb_spec c CR) as [->|Hc]; [|done].
  rewrite IH, filter_cons_False; [done|]. by intros [? _].
Qed.

Lemma emit_line_payload (cur : str) :
  filter is_payload (concat (emit_line cur)) = filter is_payload cur.
Proof.
  unfold emit_line. destruct (bool_decide_reflect (rstrip_cr cur = [])) as [E|_].
  - by rewrite <- (rstrip_cr_payload cur), E.
  - cbn [concat]. by rewrite app_nil_r, rstrip_cr_payload.
Qed.

Lemma frame_lines_well_formed (s cur : str) :
  LF ∉ cur →
  Forall (λ line, line ≠ [] ∧ (LF ∉ line) ∧ last line ≠ Some CR) (frame cur s).1.
Proof.
  revert cur. induction s as [|c s IH]; intros cur H; simpl; [constructor|].
  destruct (N.eqb_spec c LF) as [->|Hc]; simpl.
  - apply Forall_app. split; [|apply IH, not_elem_of_nil].
    unfold emit_line. destruct (bool_decide_reflect (rstrip_cr cur = [])) as [|Hne];
      [constructor|].
    repeat constructor; [done| |apply rstrip_cr_last].
    intros Hin. by apply H, rstrip_cr_elem_of.
  - apply IH. rewrite not_elem_of_app, not_elem_of_cons. split; [done|].
    split; [done|apply not_elem_of_nil].
Qed.

Lemma frame_payload (s cur : str) :
  filter is_payload (concat (frame cur s).1 ++ (frame cur s).2)
  = filter is_payload (cur ++ s).
Proof.
  revert cur. induction s as [|c s IH]; intros cur; cbn [frame].
  - cbn [fst snd concat app]. by rewrite app_nil_r.
  - destruct (N.eqb_spec c LF) as [->|Hc]; cbn [fst snd].
    + rewrite concat_app, <- app_assoc, filter_app, emit_line_payload, IH.
      rewrite !filter_app. by rewrite (filter_cons_False _ LF s) by (by intros [_ ?]).
    + rewrite IH. by rewrite <- app_assoc.
Qed.

(** ** The bytes on the wire *)

Ltac cmp_step :=
  match goal with
  | |- context [N.ltb ?a ?b] => destruct (N.ltb_spec a b); try lia
  | |- context [N.leb ?a ?b] => destruct (N.leb_spec a b); try lia
  | |- context [N.eqb ?a ?b] => destruct (N.eqb_spec a b); try lia
  end.

Ltac cmp := repeat (cmp_step; cbn [andb orb negb]).

Lemma div_mod_64 (n : N) : n = 64 * (n / 64) + n mod 64 ∧ n mod 64 < 64.
Proof. split; [apply N.div_mod; lia | apply N.mod_lt; lia]. Qed.

Lemma div_4096 (n : N) : n / 4096 = n / 64 / 64.
Proof. by rewrite N.Div0.div_div. Qed.

Lemma div_262144 (n : N) : n / 262144 = n / 64 / 64 / 64.
Proof. by rewrite !N.Div0.div_div. Qed.

(** Decoding reads back every encoded character, whatever bytes follow. *)
Lemma utf8_decode_encode_char (c : char) (enc rest : list N) :
  utf8_encode_char c = Some enc → utf8_decode (enc ++ rest) = c :: utf8_decode rest.
Proof.
  unfold utf8_encode_char. rewrite div_262144, div_4096.
  destruct (div_mod_64 c) as [E0 R0].
  destruct (div_mod_64 (c / 64)) as [E1 R1].
  destruct (div_mod_64 (c / 64 / 64)) as [E2 R2].
  revert E0 R0 E1 R1 E2 R2.
  generalize (c mod 64) (c / 64 mod 64) (c / 64 / 64 mod 64).
  generalize (c / 64 / 64 / 64). generalize (c / 64 / 64). generalize (c / 64).
  intros q1 q2 q3 r0 r1 r2 E0 R0 E1 R1 E2 R2.
  destruct (N.ltb_spec c 128).
  { intros [= <-]. cbn [app utf8_decode]. by cmp. }
  destruct (N.ltb_spec c 2048).
  { intros [= <-]. cbn [app utf8_decode]. unfold is_continuation.
    cmp; f_equal; lia. }
  destruct (N.ltb_spec c 65536).
  { destruct (N.leb_spec 55296 c); destruct (N.ltb_spec c 57344);
      cbn [andb]; try done.
    all: intros [= <-]; cbn [app utf8_decode]; unfold is_continuation; cmp;
      f_equal; lia. }
  destruct (N.ltb_spec c 1114112); [|done].
  intros [= <-]. cbn [app utf8_decode]. unfold is_continuation.
  cmp; f_equal; lia.
Qed.

Lemma utf8_encode_char_scalar (c : char) : is_scalar c ↔ is_Some (utf8_encode_char c).
Proof.
  unfold is_scalar, utf8_encode_char.
  cmp; split; intros Hc; try lia; try (by eauto); try (exfalso; lia);
    by destruct Hc.
Qed.

Lemma utf8_encode_cons (c : char) (s : str) :
  utf8_encode (c :: s)
  = enc ← utf8_encode_char c; rest ← utf8_encode s; Some (enc ++ rest).
Proof.
  unfold utf8_encode. cbn [mapM]. destruct (utf8_encode_char c); [|done].
  cbn [mbind option_bind]. by destruct (mapM utf8_encode_char s).
Qed.

Lemma utf8_encode_scalar (s : str) : Forall is_scalar s ↔ is_Some (utf8_encode s).
Proof.
  induction s as [|c s IH]; [by split|].
  rewrite Forall_cons, utf8_encode_cons, IH, utf8_encode_char_scalar.
  destruct (utf8_encode_char c), (utf8_encode s); cbn [mbind option_bind];
    split; try done.
  all: try (by intros [_ [? ?]]); try (by intros [[? ?] _]); by intros [? ?].
Qed.

Lemma utf8_decode_encode (s : str) (bs rest : list N) :
  utf8_encode s = Some bs → utf8_decode (bs ++ rest) = s ++ utf8_decode rest.
Proof.
  revert bs. induction s as [|c s IH]; intros bs.
  { by intros [= <-]. }
  rewrite utf8_encode_cons.
  destruct (utf8_encode_char c) as [enc|] eqn:Ec; [|done].
  destruct (utf8_encode s) as [bs'|]; [|done].
  cbn [mbind option_bind]. intros [= <-].
  rewrite <- app_assoc, (utf8_decode_encode_char c enc _ Ec), (IH bs' eq_refl).
  done.
Qed.

Lemma utf8_decode_encode_all (texts : list str) (reads : list (list N)) :
  mapM utf8_encode texts = Some reads →
  utf8_decode <$> reads = texts ∧ utf8_decode (concat reads) = concat texts.
Proof.
  rewrite mapM_Some. induction 1 as [|text read texts reads H _ [IH1 IH2]]; [done|].
  cbn [fmap list_fmap concat]. split.
  - fold (fmap utf8_decode reads). rewrite IH1. f_equal.
    rewrite <- (app_nil_r read), (utf8_decode_encode text read [] H).
    apply app_nil_r.
  - by rewrite (utf8_decode_encode text read _ H), IH2.
Qed.

Lemma read_data_frame (reads : list (list N)) (buffer : str) :
  LF ∉ buffer →
  SerialWorker.read_data buffer reads = frame buffer (concat (utf8_decode <$> reads)).
Proof.
  revert buffer. induction reads as [|read reads IH]; intros buffer H; [done|].
  cbn [SerialWorker.read_data fmap list_fmap concat].
  rewrite read_data_step_frame, frame_carry by done.
  fold (fmap utf8_decode reads).
  rewrite IH by (by apply frame_rest_no_lf). by rewrite frame_app.
Qed.

Lemma read_data_one_read (read : list N) :
  SerialWorker.read_data [] [read] = read_data_step [] (utf8_decode read).
Proof.
  cbn [SerialWorker.read_data]. rewrite app_nil_r. by destruct (read_data_step _ _).
Qed.

(** X1. Whatever text arrives, every line the reader emits is non-empty,
    holds no line feed and does not end in a carriage return, and the text
    it keeps for the next pass holds no line feed: the inner loop always
    ends by its own test, whatever bound above the buffer's length is put on
    its rounds. *)
Theorem read_data_lines_well_formed (buffer data : str) :
  let pass := read_data_step buffer data in
  Forall (λ line, line ≠ [] ∧ (LF ∉ line) ∧ last line ≠ Some CR) pass.1
  ∧ (LF ∉ pass.2)
  ∧ ∀ fuel, (length (buffer ++ data) < fuel)%nat →
      process_buffer fuel (buffer ++ data) = pass.
Proof.
  intros pass. subst pass. rewrite read_data_step_frame. split; [|split].
  - apply frame_lines_well_formed, not_elem_of_nil.
  - apply frame_rest_no_lf, not_elem_of_nil.
  - intros fuel Hfuel. by apply process_buffer_frame.
Qed.

(** X2. Every read is decoded on its own, so the lines emitted are those
    of one pass over the decoded texts joined.  When the stream is cut
    between characters, every read being the UTF-8 encoding of a text, the
    successive reads emit the same lines and keep the same buffer as one
    read of all the bytes, and the text decoded is the texts joined.  A cut
    inside a character does change the lines: each part of the character is
    replaced on its own. *)
Theorem read_data_chunking (texts : list str) (reads : list (list N)) :
  mapM utf8_encode texts = Some reads →
  SerialWorker.read_data [] reads = SerialWorker.read_data [] [concat reads]
  ∧ SerialWorker.read_data [] reads = read_data_step [] (concat texts)
  ∧ utf8_decode (concat reads) = concat texts
  ∧ (∀ others,
       SerialWorker.read_data [] others
       = read_data_step [] (concat (utf8_decode <$> others)))
  ∧ SerialWorker.read_data [] [[99; 97; 102; 195]; [169; 10]]
    = ([[99; 97; 102; REPLACEMENT; REPLACEMENT]], [])
  ∧ SerialWorker.read_data [] [[99; 97; 102; 195; 169; 10]]
    = ([[99; 97; 102; 233]], []).
Proof.
  intros H. destruct (utf8_decode_encode_all texts reads H) as [Heach Hall].
  assert (Hany : ∀ others, SerialWorker.read_data [] others
            = read_data_step [] (concat (utf8_decode <$> others))).
  { intros others. rewrite read_data_step_frame.
    apply read_data_frame, not_elem_of_nil. }
  split; [|split; [|split; [exact Hall|split; [exact Hany|]]]].
  - by rewrite read_data_one_read, Hall, Hany, Heach.
  - by rewrite Hany, Heach.
  - split; reflexivity.
Qed.

Lemma read_data_chunking_witness :
  SerialWorker.read_data [] [[99; 97; 102]; [195; 169; 13; 10; 111]; [107; 10]]
  = ([[99; 97; 102; 233]; py "ok"], []).
Proof.
  refine (proj1 (proj2 (read_data_chunking
            [py "caf"; [233; 13; 10; 111]; py "k" ++ [LF]] _ _))).
  reflexivity.
Defined.

(** X3. Nothing but line structure is lost: the characters other than
    carriage returns and line feeds of the lines emitted, followed by those
    of the buffer kept, are those of the old buffer and the new text, in
    order. *)
Theorem read_data_keeps_payload (buffer data : str) :
  let pass := read_data_step buffer data in
  filter is_payload (concat pass.1 ++ pass.2) = filter is_payload (buffer ++ data).
Proof.
  intros pass. subst pass. rewrite read_data_step_frame.
  exact (frame_payload (buffer ++ data) []).
Qed.

Lemma sent_text_framing (key ending data : str) :
  LINE_ENDINGS !! key = Some ending →
  data ≠ [] → LF ∉ data → last data ≠ Some CR →
  read_data_step [] (data ++ ending)
  = (if bool_decide (key = py "CRLF" ∨ key = py "LF") then ([data], [])
     else ([], data ++ ending))
  ∧ key ∈ [py "CRLF"; py "LF"; py "CR"; py "None"]
  ∧ ending ∈ [[CR; LF]; [LF]; [CR]; []].
Proof.
  intros Hkey Hne HLF HCR. rewrite read_data_step_frame. cbn [app].
  unfold LINE_ENDINGS in Hkey.
  assert (Hemit : emit_line data = [data]).
  { unfold emit_line. rewrite rstrip_cr_id by done.
    by rewrite bool_decide_eq_false_2. }
  apply lookup_insert_Some in Hkey as [[<- <-]|[_ Hkey]].
  { split; [|set_solver]. rewrite bool_decide_eq_true_2 by (by left).
    change (data ++ [CR; LF]) with (data ++ [CR] ++ LF :: []).
    rewrite app_assoc, frame_app_lf.
    - unfold emit_line. cbn [app]. rewrite rstrip_cr_snoc. fold (emit_line data).
      by rewrite Hemit.
    - rewrite not_elem_of_app, not_elem_of_cons. split; [done|].
      split; [done|apply not_elem_of_nil]. }
  apply lookup_insert_Some in Hkey as [[<- <-]|[_ Hkey]].
  { split; [|set_solver]. rewrite bool_decide_eq_true_2 by (by right).
    rewrite frame_app_lf by done. cbn [app]. by rewrite Hemit. }
  apply lookup_insert_Some in Hkey as [[<- <-]|[_ Hkey]].
  { split; [|set_solver].
    rewrite bool_decide_eq_false_2 by (intros [?|?]; done).
    rewrite frame_no_lf; [done|].
    rewrite not_elem_of_app, not_elem_of_cons. split; [done|].
    split; [done|apply not_elem_of_nil]. }
  apply lookup_insert_Some in Hkey as [[<- <-]|[_ Hkey]].
  { split; [|set_solver].
    rewrite bool_decide_eq_false_2 by (intros [?|?]; done).
    rewrite frame_no_lf; [done|]. by rewrite app_nil_r. }
  by rewrite lookup_empty in Hkey.
Qed.

(** X4. A text sent with one of the four [Config.LINE_ENDINGS] and echoed:
    [send_data] writes the UTF-8 bytes of the text and its ending, and when
    the reader gets these bytes in one read from an empty buffer, with
    ["CRLF"] or ["LF"] it emits the text as one line and keeps nothing, and
    with ["CR"] or ["None"] it emits nothing and keeps the whole text in its
    buffer.  The text holds no surrogate (the encoding would raise and
    nothing would be written), is non-empty, holds no line feed and does not
    end in a carriage return.  No other name is in the table. *)
Theorem read_data_of_sent_text (key ending data : str) :
  LINE_ENDINGS !! key = Some ending →
  Forall is_scalar data → data ≠ [] → LF ∉ data → last data ≠ Some CR →
  (∃ written,
     SerialWorker.send_data data ending = Some written
     ∧ utf8_decode written = data ++ ending
     ∧ SerialWorker.read_data [] [written]
       = (if bool_decide (key = py "CRLF" ∨ key = py "LF") then ([data], [])
          else ([], data ++ ending)))
  ∧ key ∈ [py "CRLF"; py "LF"; py "CR"; py "None"].
Proof.
  intros Hkey Hscalar Hne HLF HCR.
  destruct (sent_text_framing key ending data Hkey Hne HLF HCR) as (Hread & Hin & Hend).
  split; [|exact Hin].
  assert (Hall : Forall is_scalar (data ++ ending)).
  { apply Forall_app. split; [exact Hscalar|].
    repeat (apply elem_of_cons in Hend as [->|Hend];
            [repeat constructor; unfold is_scalar, CR, LF; lia|]).
    by apply elem_of_nil in Hend. }
  apply utf8_encode_scalar in Hall as [written Hw].
  exists written. split; [exact Hw|].
  pose proof (utf8_decode_encode _ written [] Hw) as Hd.
  rewrite app_nil_r in Hd. cbn [utf8_decode] in Hd. rewrite app_nil_r in Hd.
  split; [exact Hd|]. by rewrite read_data_one_read, Hd.
Qed.

Lemma read_data_of_sent_text_witness :
  ∃ written,
    SerialWorker.send_data [99; 97; 102; 233] [CR; LF] = Some written
    ∧ SerialWorker.read_data [] [written] = ([[99; 97; 102; 233]], []).
Proof.
  assert (Hs : Forall is_scalar [99; 97; 102; 233]).
  { repeat constructor; unfold is_scalar; lia. }
  assert (HLF : LF ∉ [99; 97; 102; 233]).
  { apply (bool_decide_unpack _). vm_compute. exact I. }
  destruct (proj1 (read_data_of_sent_text (py "CRLF") [CR; LF] [99; 97; 102; 233]
                     eq_refl Hs ltac:(discriminate) HLF ltac:(discriminate)))
    as (written & Hw & _ & Hr).
  exists written. split; [exact Hw | exact Hr].
Defined.

(** ** The export dialog's selection *)

Lemma selected_levels_from_spec (checkboxes : list bool) (i : nat) (l : str) :
  l ∈ ExportDialog.selected_levels_from i checkboxes
  ↔ ∃ j, checkboxes !! j = Some true ∧ LOG_LEVELS_keys !! (i + j)%nat = Some l.
Proof.
  revert i. induction checkboxes as [|cb rest IH]; intros i;
    cbn [ExportDialog.selected_levels_from].
  - split; [by intros ?%elem_of_nil|]. by intros (j & ? & _).
  - rewrite elem_of_app, IH. split.
    + intros [H|(j & Hj & Hl)].
      * destruct cb; [|by apply elem_of_nil in H]. cbn [andb] in H.
        destruct (Nat.ltb_spec i (length LOG_LEVELS_keys)) as [Hlt|];
          [|by apply elem_of_nil in H].
        apply list_elem_of_singleton in H as ->.
        exists 0%nat. split; [done|]. rewrite Nat.add_0_r.
        destruct (lookup_lt_is_Some_2 LOG_LEVELS_keys i Hlt) as [k Hk].
        by rewrite Hk.
      * exists (S j). split; [done|]. by rewrite <- Nat.add_succ_comm.
    + intros ([|j] & Hj & Hl).
      * left. simpl in Hj. injection Hj as ->. rewrite Nat.add_0_r in Hl.
        rewrite (proj2 (Nat.ltb_lt _ _) (lookup_lt_Some _ _ _ Hl)), Hl.
        cbn [andb default]. by apply list_elem_of_singleton.
      * right. exists j. split; [done|]. by rewrite Nat.add_succ_comm.
Qed.

Lemma level_idx_key entry l :
  level entry = Some l → l ∈ vocabulary →
  LOG_LEVELS_keys !! level_idx entry = Some l.
Proof.
  intros Hl Hin. unfold level_idx. rewrite Hl. cbn [mbind option_bind].
  unfold vocabulary in Hin.
  repeat (apply elem_of_cons in Hin as [->|Hin]; [by vm_compute|]).
  by apply elem_of_nil in Hin.
Qed.

Lemma LOG_LEVELS_keys_NoDup : NoDup LOG_LEVELS_keys.
Proof. apply (bool_decide_unpack _). vm_compute. exact I. Qed.

Lemma selected_passes self entry l :
  level entry = Some l → l ∈ vocabulary →
  bool_decide (level entry ∈ Some <$> ExportDialog.selected_levels self)
  = passes (ExportDialog.level_checkboxes self) entry.
Proof.
  intros Hl Hin. pose proof (level_idx_key entry l Hl Hin) as Hkey.
  unfold passes. rewrite Hl.
  destruct (Nat.ltb_spec (level_idx entry) (length (ExportDialog.level_checkboxes self)))
    as [Hlt|Hge].
  - destruct (lookup_lt_is_Some_2 _ _ Hlt) as [b Hb]. rewrite Hb. cbn [default].
    destruct b.
    + apply bool_decide_eq_true_2, list_elem_of_fmap. exists l. split; [done|].
      apply selected_levels_from_spec. by exists (level_idx entry).
    + apply bool_decide_eq_false_2. intros (l' & [= <-] & H)%list_elem_of_fmap.
      apply selected_levels_from_spec in H as (j & Hj & Hk). simpl in Hk.
      assert (j = level_idx entry) as ->
        by (eapply NoDup_lookup; eauto using LOG_LEVELS_keys_NoDup).
      congruence.
  - apply bool_decide_eq_false_2. intros (l' & [= <-] & H)%list_elem_of_fmap.
    apply selected_levels_from_spec in H as (j & Hj & Hk). simpl in Hk.
    assert (j = level_idx entry) as ->
      by (eapply NoDup_lookup; eauto using LOG_LEVELS_keys_NoDup).
    apply lookup_lt_Some in Hj. lia.
Qed.

(** X5. The export dialog selects what the display shows.  For a store of
    entries that carry a tag of the vocabulary and the same booleans, of any
    number, as check box states and as the display's filter, the entries
    [ExportDialog.get_filtered_entries] keeps are the display's filtered
    entries, in the same order.  Opened from the main window the dialog has
    all seven boxes checked and selects the whole store; with every box
    cleared it selects nothing. *)
Theorem export_selection_matches_display (w : LogDisplayWidget) (incl : bool) (fmt : str) :
  Forall (λ entry, ∃ l, level entry = Some l ∧ l ∈ vocabulary) (log_entries w) →
  ExportDialog.get_filtered_entries
    (ExportDialog.mk (log_entries w) (level_filter w) incl fmt)
  = filtered_entries (apply_filters w)
  ∧ ExportDialog.get_filtered_entries (ExportDialog.init (log_entries w))
    = log_entries w
  ∧ ExportDialog.get_filtered_entries
      (ExportDialog.select_no_levels
         (ExportDialog.mk (log_entries w) (level_filter w) incl fmt))
    = [].
Proof.
  intros Hvoc. rewrite Forall_forall in Hvoc.
  assert (Hsel : ∀ self, ExportDialog.log_entries self = log_entries w →
            ExportDialog.get_filtered_entries self
            = List.filter (passes (ExportDialog.level_checkboxes self)) (log_entries w)).
  { intros self Hself. unfold ExportDialog.get_filtered_entries.
    rewrite filter_loop, Hself. cbn [app]. apply list_filter_ext_in.
    intros e He. destruct (Hvoc e He) as (l & Hl & Hin).
    by apply (selected_passes self e l). }
  split; [|split].
  - rewrite Hsel by done. by rewrite apply_filters_filtered.
  - rewrite Hsel by done. apply list_filter_all. intros e _.
    unfold passes. cbn [ExportDialog.init ExportDialog.level_checkboxes].
    pose proof (level_idx_bound e) as Hi.
    rewrite length_replicate. change (length LOG_LEVELS_keys) with 7%nat.
    rewrite (proj2 (Nat.ltb_lt _ _) Hi). by rewrite lookup_replicate_2.
  - rewrite Hsel by done. apply list_filter_none. intros e _.
    unfold passes. cbn [ExportDialog.select_no_levels ExportDialog.level_checkboxes].
    destruct (_ <? _)%nat; [|done].
    rewrite list_lookup_fmap. by destruct (level_filter w !! level_idx e).
Qed.

Lemma export_selection_matches_display_witness :
  let store := [entry_of "[0] fault"; entry_of "boot"; entry_of "*wm AP"; entry_of "[0] halt"] in
  let flt := [true; false; false; false; false; true; false] in
  ExportDialog.get_filtered_entries (ExportDialog.mk store flt true (py "CSV (.csv)"))
  = filtered_entries (apply_filters (mkLogDisplayWidget store [] flt 10000)).
Proof.
  intros store flt.
  refine (proj1 (export_selection_matches_display
                   (mkLogDisplayWidget store [] flt 10000) true (py "CSV (.csv)") _)).
  repeat constructor; apply constructed_in_vocabulary.
Defined.

(** ** Saved and copied text *)

Lemma rstrip_elem_of c (s : str) : c ∈ rstrip s → c ∈ s.
Proof.
  unfold rstrip. rewrite elem_of_reverse. intros H.
  destruct (drop_while_suffix is_space (reverse s)) as [k Hk].
  apply elem_of_reverse. rewrite Hk. apply elem_of_app. by right.
Qed.

Lemma strip_elem_of c (s : str) : c ∈ strip s → c ∈ s.
Proof.
  unfold strip. intros H%rstrip_elem_of.
  destruct (drop_while_suffix is_space s) as [k Hk].
  rewrite Hk. apply elem_of_app. by right.
Qed.

Lemma take_while_is_dot_no_lf (s : str) : LF ∉ take_while is_dot s.
Proof.
  induction s as [|c s IH]; simpl; [apply not_elem_of_nil|].
  destruct (is_dot c) eqn:Hc; [|apply not_elem_of_nil].
  apply not_elem_of_cons. split; [|done].
  apply negb_true_iff, N.eqb_neq in Hc. congruence.
Qed.

Lemma constructed_message_no_lf raw ts lvl msg :
  LF ∉ raw → LF ∉ format_str (message (LogEntry_init raw ts lvl msg)).
Proof.
  intros HLF. unfold LogEntry_init.
  set (self := mkLogEntry (strip raw) ts lvl msg false).
  destruct (marker_cases (raw_data self)) as [Hs|[Hw|[Hs Hw]]].
  - destruct Hs as (d & rest & Hd & Hraw). cbn in Hraw.
    rewrite (parse_severity self d rest Hd Hraw). apply take_while_is_dot_no_lf.
  - destruct Hw as (rest & Hraw). cbn in Hraw.
    rewrite (parse_wm self rest Hraw). apply take_while_is_dot_no_lf.
  - rewrite (parse_generic self Hs Hw). cbn. intros H. by apply HLF, strip_elem_of.
Qed.

Lemma strftime_time_no_lf t : LF ∉ slice_to (-3) (strftime_time t).
Proof.
  intros H. unfold slice_to in H. apply elem_of_take in H as (i & H & _).
  apply list_elem_of_lookup_2 in H. unfold strftime_time in H.
  repeat (apply elem_of_app in H as [H|H];
          [first [apply zfill_digits in H; unfold LF in H; lia
                 | by repeat (apply elem_of_cons in H as [H|H]; [done|]);
                      apply elem_of_nil in H]|]).
  apply zfill_digits in H. unfold LF in H. lia.
Qed.

Lemma level_name_printable (self : LogEntry) :
  Forall (λ c, 32 ≤ c ≤ 126) (get_level_name self).
Proof.
  pose proof (level_name_values self) as H. revert H.
  generalize (get_level_name self). intros s H.
  repeat (apply elem_of_cons in H as [->|H];
          [apply (bool_decide_unpack _); vm_compute; exact I|]).
  by apply elem_of_nil in H.
Qed.

Lemma display_string_no_lf (entry : LogEntry) (show : bool) :
  LF ∉ format_str (message entry) → LF ∉ to_export_string entry show.
Proof.
  intros Hm. unfold to_export_string, to_display_string.
  rewrite !not_elem_of_app. split; [|split; [|split; [|split]]].
  - destruct show; [|apply not_elem_of_nil].
    rewrite not_elem_of_app. split; [apply strftime_time_no_lf|].
    apply (bool_decide_unpack _). vm_compute. exact I.
  - apply (bool_decide_unpack _). vm_compute. exact I.
  - intros H. pose proof (level_name_printable entry) as Hp.
    rewrite Forall_forall in Hp. apply Hp in H. unfold LF in H. lia.
  - apply (bool_decide_unpack _). vm_compute. exact I.
  - done.
Qed.

Lemma write_loop {A} (f : A → str) (l : list A) (acc : str) :
  foldl (fun text x => text ++ f x) acc l = acc ++ concat (f <$> l).
Proof.
  revert acc. induction l as [|x l IH]; intros acc; simpl.
  - by rewrite app_nil_r.
  - rewrite IH. by rewrite <- app_assoc.
Qed.

Lemma split_lines_line (x rest cur : str) :
  LF ∉ x → split_lines cur (x ++ LF :: rest) = (cur ++ x) :: split_lines [] rest.
Proof.
  revert cur. induction x as [|c x IH]; intros cur H; simpl.
  - by rewrite app_nil_r.
  - apply not_elem_of_cons in H as [Hc Hx].
    rewrite (proj2 (N.eqb_neq c LF)) by done.
    rewrite IH by done. by rewrite <- app_assoc.
Qed.

Lemma split_lines_records {A} (f : A → str) (l : list A) :
  Forall (λ x, LF ∉ f x) l →
  split_lines [] (concat ((λ x, f x ++ [LF]) <$> l)) = f <$> l.
Proof.
  induction 1 as [|x l Hx _ IH]; [done|].
  rewrite fmap_cons, concat_cons, <- app_assoc. cbn [app].
  rewrite split_lines_line by done. by rewrite IH.
Qed.

Lemma write_entries_lines (show : bool) (entries : list LogEntry) :
  Forall (λ entry, LF ∉ format_str (message entry)) entries →
  split_lines [] (write_entries show entries)
  = (λ entry, to_export_string entry show) <$> entries.
Proof.
  intros H. unfold write_entries.
  rewrite (write_loop (λ entry, to_export_string entry show ++ [LF])). cbn [app].
  apply (split_lines_records (λ entry, to_export_string entry show)).
  eapply Forall_impl; [exact H|]. intros e He. by apply display_string_no_lf.
Qed.

(** X6. One line per entry in saved and copied text.  When no message of
    the store holds a line feed, the file [save_logs] writes reads back,
    line by line, as the export strings of the stored entries, in order, and
    so does the file of [auto_save_logs] when the store is not empty (with
    an empty store it writes nothing); likewise the clipboard text of
    [copy_all_logs] for the filtered entries.  An entry constructed from a
    raw line without line feed has such a message. *)
Theorem saved_text_one_line_per_entry (self : MainWindow) (show : bool) :
  (Forall (λ entry, LF ∉ format_str (message entry)) (log_entries (log_display self)) →
     split_lines [] (save_logs self show)
     = (λ entry, to_export_string entry show) <$> log_entries (log_display self)
     ∧ (log_entries (log_display self) ≠ [] →
        ∃ text, auto_save_logs self = Some text
                ∧ split_lines [] text
                  = (λ entry, to_export_string entry true)
                      <$> log_entries (log_display self)))
  ∧ (Forall (λ entry, LF ∉ format_str (message entry))
            (filtered_entries (log_display self)) →
     split_lines [] (copy_all_logs self show)
     = (λ entry, to_export_string entry show) <$> filtered_entries (log_display self))
  ∧ (log_entries (log_display self) = [] → auto_save_logs self = None)
  ∧ (∀ raw ts lvl msg,
       LF ∉ raw → LF ∉ format_str (message (LogEntry_init raw ts lvl msg))).
Proof.
  split; [|split; [|split]].
  - intros H. split; [by apply write_entries_lines|].
    intros Hne. unfold auto_save_logs, get_all_entries.
    destruct (log_entries (log_display self)) as [|e es] eqn:E; [done|].
    eexists. split; [reflexivity|]. by apply write_entries_lines.
  - intros H. by apply write_entries_lines.
  - intros H. unfold auto_save_logs, get_all_entries. by rewrite H.
  - apply constructed_message_no_lf.
Qed.

Lemma saved_text_one_line_per_entry_witness :
  let store := [entry_of "[0] fault"; entry_of "boot"] in
  let self := mkMainWindow (mkLogDisplayWidget store store (replicate 7 true) 10000) 10 in
  split_lines [] (save_logs self false) = [py "[ERROR] fault"; py "[GENERIC] boot"].
Proof.
  intros store self.
  assert (H : Forall (λ entry, LF ∉ format_str (message entry))
                     (log_entries (log_display self))).
  { repeat constructor; apply (bool_decide_unpack _); vm_compute; exact I. }
  destruct (proj1 (saved_text_one_line_per_entry self false) H) as [Hsave _].
  rewrite Hsave. reflexivity.
Defined.

(** ** The port of a combo item *)

Lemma split_head_item (device rest : str) :
  32 ∉ device → split_head (py " - ") (device ++ py " - " ++ rest) = device.
Proof.
  induction device as [|c device IH]; intros H.
  - reflexivity.
  - apply not_elem_of_cons in H as [Hc Hd].
    cbn [app split_head is_prefix]. change (py " - ") with [32; 45; 32].
    cbn [is_prefix]. rewrite (proj2 (N.eqb_neq 32 c)) by done. cbn [andb].
    f_equal. by apply IH.
Qed.

(** X7. The port that [connect_serial] opens is the device of the selected
    combo item, whatever its description, when the device name holds no
    space; a device name with [" - "] inside is cut at it. *)
Theorem selected_port_is_device (device description : str) :
  32 ∉ device →
  selected_port (port_item device description) = device
  ∧ ∀ tail, selected_port (port_item (device ++ py " - " ++ tail) description)
            = device.
Proof.
  intros H. unfold selected_port, port_item. split.
  - by apply split_head_item.
  - intros tail. rewrite <- !app_assoc. by apply split_head_item.
Qed.

Lemma selected_port_is_device_witness :
  selected_port (port_item (py "/dev/ttyUSB0") (py "USB - Serial adapter"))
  = py "/dev/ttyUSB0".
Proof.
  refine (proj1 (selected_port_is_device (py "/dev/ttyUSB0") (py "USB - Serial adapter") _)).
  apply (bool_decide_unpack _). vm_compute. exact I.
Defined.

(** ** The handlers of the main window *)

Lemma last_last_n {A} (n : nat) (l : list A) :
  (0 < n)%nat → last (last_n n l) = last l.
Proof.
  intros Hn. destruct (decide (l = [])) as [->|Hne]; [done|].
  unfold last_n. rewrite <- (take_drop (length l - n) l) at 3.
  rewrite last_app. destruct (last (drop (length l - n) l)) eqn:E; [done|].
  apply last_None in E. apply (f_equal length) in E.
  rewrite length_drop in E. simpl in E.
  assert (length l ≠ 0%nat) by (by destruct l). lia.
Qed.

Lemma update_statistics_cases (self : MainWindow) :
  update_statistics self = self
  ∨ ((1000 < length (log_entries (log_display self)))%nat
     ∧ update_statistics self
       = mkMainWindow
           (apply_filters
              (mkLogDisplayWidget (last_n 1000 (log_entries (log_display self)))
                 (filtered_entries (log_display self))
                 (level_filter (log_display self)) (max_lines (log_display self))))
           (log_file_size_mb self)).
Proof.
  unfold update_statistics, trim_logs, get_all_entries.
  destruct (negb _); [|by left].
  destruct (Nat.ltb_spec 1000 (length (log_entries (log_display self)))) as [Hlt|];
    [|by left].
  right. split; [done|].
  change (-1000)%Z with (- Z.of_nat 1000)%Z. by rewrite slice_from_neg by lia.
Qed.

(** X8. A received line is never lost to the trims it triggers.  With a
    positive [max_lines], after [on_data_received] the newest entry of the
    store is the entry of the line just received; the store is a suffix of
    the old store followed by that entry and holds at most [max_lines]
    entries; the two ceilings are unchanged. *)
Theorem on_data_received_keeps_newest (self : MainWindow) (data : str) (now : datetime) :
  (0 < max_lines (log_display self))%Z →
  let entry := LogEntry_init data now None None in
  let after := on_data_received self data now in
  last (log_entries (log_display after)) = Some entry
  ∧ log_entries (log_display after)
      `suffix_of` (log_entries (log_display self) ++ [entry])
  ∧ (Z.of_nat (length (log_entries (log_display after)))
     ≤ max_lines (log_display self))%Z
  ∧ max_lines (log_display after) = max_lines (log_display self)
  ∧ log_file_size_mb after = log_file_size_mb self.
Proof.
  intros Hm entry after. subst after. unfold on_data_received. fold entry.
  set (added := mkMainWindow (add_log_entry (log_display self) entry)
                             (log_file_size_mb self)).
  assert (Hadd : log_entries (log_display added)
                 = last_n (Z.to_nat (max_lines (log_display self)))
                          (log_entries (log_display self) ++ [entry])).
  { by apply add_log_entry_log_entries. }
  assert (Hlast : last (log_entries (log_display added)) = Some entry).
  { rewrite Hadd, last_last_n by lia. apply last_snoc. }
  assert (Hlen : (Z.of_nat (length (log_entries (log_display added)))
                  ≤ max_lines (log_display self))%Z).
  { rewrite Hadd, length_last_n. lia. }
  destruct (update_statistics_cases added) as [->|[Hbig ->]].
  - split; [done|]. split; [rewrite Hadd; apply last_n_suffix|done].
  - cbn [log_display log_file_size_mb]. rewrite apply_filters_log_entries.
    cbn [log_entries max_lines apply_filters].
    split; [by rewrite last_last_n by lia|].
    split; [|split; [|done]].
    + etrans; [apply last_n_suffix|]. rewrite Hadd. apply last_n_suffix.
    + rewrite length_last_n. lia.
Qed.

Lemma on_data_received_keeps_newest_witness :
  let self := mkMainWindow (mkLogDisplayWidget [entry_of "a"; entry_of "b"] []
                                               (replicate 7 true) 2) 10 in
  last (log_entries (log_display (on_data_received self (py "[1] c") ts0)))
  = Some (entry_of "[1] c").
Proof.
  intros self.
  assert (Hm : (0 < max_lines (log_display self))%Z) by (cbn; lia).
  exact (proj1 (on_data_received_keeps_newest self (py "[1] c") ts0 Hm)).
Defined.

(** X9. The size check settles at once: running [update_statistics] a
    second time changes nothing, since a store it has trimmed holds 1000
    entries and is not trimmed again however large its text; the same holds
    for [trim_logs] on its own. *)
Theorem update_statistics_idempotent (self : MainWindow) :
  update_statistics (update_statistics self) = update_statistics self
  ∧ trim_logs (trim_logs self) = trim_logs self
  ∧ (length (log_entries (log_display (update_statistics self)))
     ≤ length (log_entries (log_display self)))%nat.
Proof.
  assert (Hkeep : ∀ s, (length (log_entries (log_display s)) ≤ 1000)%nat →
            trim_logs s = s ∧ update_statistics s = s).
  { intros s Hs. assert (Ht : trim_logs s = s).
    { unfold trim_logs, get_all_entries. by rewrite (proj2 (Nat.ltb_ge _ _) Hs). }
    split; [done|]. unfold update_statistics. rewrite Ht. by destruct (negb _). }
  assert (Htrim : ∀ s, trim_logs (trim_logs s) = trim_logs s
            ∧ (length (log_entries (log_display (trim_logs s))) ≤ 1000
               ∨ trim_logs s = s)%nat).
  { intros s. unfold trim_logs at 2 3 4, get_all_entries.
    destruct (Nat.ltb_spec 1000 (length (log_entries (log_display s)))) as [Hlt|Hge].
    - assert (Hlen : (length (log_entries (log_display
                (mkMainWindow
                   (apply_filters
                      (mkLogDisplayWidget (slice_from (-1000) (log_entries (log_display s)))
                         (filtered_entries (log_display s))
                         (level_filter (log_display s)) (max_lines (log_display s))))
                   (log_file_size_mb s)))) ≤ 1000)%nat).
      { cbn [log_display]. rewrite apply_filters_log_entries. cbn [log_entries].
        change (-1000)%Z with (- Z.of_nat 1000)%Z.
        rewrite slice_from_neg, length_last_n by lia. lia. }
      split; [by apply Hkeep|by left].
    - split; [by apply Hkeep|right; by apply Hkeep]. }
  split; [|split].
  - unfold update_statistics at 2 3. destruct (negb _) eqn:E;
      [|unfold update_statistics; by rewrite E].
    destruct (Htrim self) as [_ [Hlen|Heq]].
    + by apply Hkeep.
    + rewrite Heq. unfold update_statistics. by rewrite E.
  - apply Htrim.
  - destruct (update_statistics_cases self) as [->|[Hbig ->]]; [done|].
    cbn [log_display]. rewrite apply_filters_log_entries. cbn [log_entries].
    rewrite length_last_n. lia.
Qed.

(** ** What every session keeps *)

Lemma apply_filters_view_current (w : LogDisplayWidget) : view_current (apply_filters w).
Proof. unfold view_current. by rewrite apply_filters_filtered. Qed.

Lemma Forall_suffix {A} (P : A → Prop) (l k : list A) :
  l `suffix_of` k → Forall P k → Forall P l.
Proof. intros [pre ->] H. by apply Forall_app in H as [_ ?]. Qed.

Lemma update_statistics_keeps (P : LogEntry → Prop) (self : MainWindow) :
  view_current (log_display self) →
  Forall P (log_entries (log_display self)) →
  view_current (log_display (update_statistics self))
  ∧ Forall P (log_entries (log_display (update_statistics self))).
Proof.
  intros Hview Hall. destruct (update_statistics_cases self) as [->|[_ ->]]; [done|].
  cbn [log_display]. split; [apply apply_filters_view_current|].
  rewrite apply_filters_log_entries. cbn [log_entries].
  by eapply Forall_suffix; [apply last_n_suffix|].
Qed.

Lemma add_log_entry_keeps (P : LogEntry → Prop) (w : LogDisplayWidget) (entry : LogEntry) :
  Forall P (log_entries w) → P entry →
  view_current (add_log_entry w entry)
  ∧ Forall P (log_entries (add_log_entry w entry)).
Proof.
  intros Hall He. split; [apply apply_filters_view_current|].
  eapply Forall_suffix; [apply add_log_entry_suffix|].
  apply Forall_app. split; [done|by constructor].
Qed.

Lemma handle_keeps (self : MainWindow) (ev : event) :
  view_current (log_display self) →
  Forall constructed (log_entries (log_display self)) →
  view_current (log_display (handle self ev))
  ∧ Forall constructed (log_entries (log_display (handle self ev))).
Proof.
  intros Hview Hall. destruct ev as [data now|connected written data now|checked|confirmed|m s checked];
    cbn [handle].
  - unfold on_data_received.
    destruct (add_log_entry_keeps constructed (log_display self)
                (LogEntry_init data now None None) Hall) as [Hv Ha];
      [by repeat eexists|].
    by apply update_statistics_keeps.
  - unfold send_data. destruct connected; [|done]. destruct data as [|c data]; [done|].
    destruct written; [|done]. cbn [log_display].
    apply add_log_entry_keeps; [done|]. unfold sent_entry. by repeat eexists.
  - unfold update_level_filter.
    apply update_statistics_keeps; cbn [log_display];
      [apply apply_filters_view_current|done].
  - unfold main_clear_logs. destruct confirmed; [|done].
    apply update_statistics_keeps; cbn [log_display]; [done|constructor].
  - unfold apply_settings, update_level_filter.
    apply update_statistics_keeps; cbn [log_display];
      [apply apply_filters_view_current|done].
Qed.

(** X10. What every session keeps.  From the window as created, after any
    sequence of received lines, sent lines, filter changes, clear requests
    and accepted settings: the filtered entries are the store filtered by
    the current filter set, in order, so the display is never stale; and
    every stored entry is one the constructor built, so it carries a tag of
    the vocabulary and a message.  Each handler keeps both from any state
    that has them. *)
Theorem session_invariant (events : list event) :
  let self := foldl handle MainWindow_init events in
  view_current (log_display self)
  ∧ filtered_entries (log_display self) `sublist_of` log_entries (log_display self)
  ∧ Forall (λ entry, constructed entry
                     ∧ (∃ l, level entry = Some l ∧ l ∈ vocabulary)
                     ∧ is_Some (message entry))
           (log_entries (log_display self)).
Proof.
  intros self.
  assert (Hinv : view_current (log_display self)
                 ∧ Forall constructed (log_entries (log_display self))).
  { subst self. induction events as [|ev events IH] using rev_ind.
    - split; [reflexivity|constructor].
    - rewrite foldl_snoc. destruct IH as [Hview Hall]. by apply handle_keeps. }
  destruct Hinv as [Hview Hall]. split; [done|]. split.
  - rewrite Hview. apply list_filter_sublist.
  - eapply Forall_impl; [exact Hall|]. intros e (raw & ts & lvl & msg & ->).
    split; [by repeat eexists|].
    split; [apply constructed_in_vocabulary|apply constructed_message].
Qed.

(** ** The JSON export *)

Lemma hex_digit_printable x : 32 ≤ hex_digit (x mod 16) ≤ 126.
Proof.
  assert (H : x mod 16 < 16) by (apply N.mod_lt; lia). unfold hex_digit.
  revert H. generalize (x mod 16). intros k H.
  destruct (N.ltb_spec k 10); lia.
Qed.

Lemma hex4_printable n : Forall (λ c, 32 ≤ c ≤ 126) (hex4 n).
Proof. unfold hex4. repeat (apply Forall_cons_2; [apply hex_digit_printable|]). apply Forall_nil_2. Qed.

Lemma json_escape_char_printable c : Forall (λ c, 32 ≤ c ≤ 126) (json_escape_char c).
Proof.
  unfold json_escape_char.
  repeat match goal with
         | |- context [if ?b then _ else _] => destruct b eqn:?
         end;
    try match goal with
        | H : _ && _ = true |- _ =>
          apply andb_true_iff in H as [?%N.leb_le ?%N.leb_le]
        end;
    rewrite ?Forall_app; repeat split; try apply hex4_printable;
    repeat (apply Forall_cons_2; [lia|]); apply Forall_nil_2.
Qed.

Lemma Forall_list_bind {A B} (P : B → Prop) (f : A → list B) (l : list A) :
  (∀ x, Forall P (f x)) → Forall P (l ≫= f).
Proof.
  intros H. induction l as [|x l IH]; [constructor|].
  rewrite bind_cons. apply Forall_app. by split.
Qed.

Lemma json_string_printable s : Forall (λ c, 32 ≤ c ≤ 126) (json_string s).
Proof.
  unfold json_string. rewrite !Forall_app. split; [|split].
  - apply Forall_cons_2; [lia|apply Forall_nil_2].
  - apply Forall_list_bind, json_escape_char_printable.
  - apply Forall_cons_2; [lia|apply Forall_nil_2].
Qed.

Lemma literal_printable (s : string) :
  forallb (λ c, (32 <=? c) && (c <=? 126)) (py s) = true →
  Forall (λ c, 32 ≤ c ≤ 126) (py s).
Proof.
  intros H. apply Forall_forall. intros c Hc%list_elem_of_In.
  rewrite forallb_forall in H. apply H in Hc.
  apply andb_true_iff in Hc as [?%N.leb_le ?%N.leb_le]. lia.
Qed.

Lemma format_entry_json_printable incl entry :
  Forall (λ c, 32 ≤ c ≤ 126) (format_entry_json incl entry).
Proof.
  unfold format_entry_json. rewrite !Forall_app.
  split; [by apply literal_printable|].
  split; [apply json_string_printable|].
  split; [by apply literal_printable|].
  split; [apply json_string_printable|].
  split; [by apply literal_printable|].
  split; [apply json_string_printable|].
  split; [by apply literal_printable|].
  split; [|split; [|by apply literal_printable]].
  - destruct (message entry); [apply json_string_printable|].
    by apply literal_printable.
  - destruct incl; [|constructor]. rewrite !Forall_app.
    split; [by apply literal_printable|].
    split; [apply json_string_printable|].
    split; [by apply literal_printable|apply json_string_printable].
Qed.

Lemma mapM_total {A B} (f : A → B) (l : list A) :
  mapM (λ x, Some (f x)) l = Some (f <$> l).
Proof. apply mapM_Some_2. induction l; constructor; done. Qed.

(** X11. The JSON export is one line per entry, whatever the messages
    hold.  Every record [format_entry] makes in the JSON format consists of
    printable ASCII characters only (space to [~]), so it holds no line
    break; and the text [export_logs] writes with the format combo on
    ["JSON (.json)"] reads back, line by line, as the records of the
    selected entries, in order. *)
Theorem json_export_one_line_per_entry (self : ExportDialog.t) :
  ExportDialog.format_combo self = py "JSON (.json)" →
  (∀ entry,
     ExportDialog.format_entry self entry
     = Some (format_entry_json (ExportDialog.include_timestamps self) entry)
     ∧ Forall (λ c, 32 ≤ c ≤ 126)
              (format_entry_json (ExportDialog.include_timestamps self) entry))
  ∧ ∃ text,
      ExportDialog.export_logs self = Some text
      ∧ split_lines [] text
        = format_entry_json (ExportDialog.include_timestamps self)
            <$> ExportDialog.get_filtered_entries self.
Proof.
  intros Hfmt.
  assert (Hentry : ∀ entry, ExportDialog.format_entry self entry
            = Some (format_entry_json (ExportDialog.include_timestamps self) entry)).
  { intros entry. unfold ExportDialog.format_entry. by rewrite Hfmt. }
  split.
  - intros entry. split; [done|apply format_entry_json_printable].
  - unfold ExportDialog.export_logs. rewrite Hfmt.
    rewrite (mapM_ext _ _ _ Hentry), mapM_total. cbn [mbind option_bind].
    eexists. split; [reflexivity|].
    change (contains (py "CSV") (py "JSON (.json)")) with false. cbn [app].
    rewrite <- list_fmap_compose. unfold compose.
    apply (split_lines_records (format_entry_json (ExportDialog.include_timestamps self))).
    apply Forall_forall. intros e _ H.
    pose proof (format_entry_json_printable (ExportDialog.include_timestamps self) e) as Hp.
    rewrite Forall_forall in Hp. apply Hp in H. unfold LF in H. lia.
Qed.

Lemma json_export_one_line_per_entry_witness :
  let store := [LogEntry_init (py "[1] a" ++ [9; 233] ++ py "b") ts0 None None;
                entry_of "boot"] in
  let self := ExportDialog.mk store (replicate 7 true) false (py "JSON (.json)") in
  ∃ text, ExportDialog.export_logs self = Some text
          ∧ length (split_lines [] text) = 2%nat.
Proof.
  intros store self.
  destruct (proj2 (json_export_one_line_per_entry self eq_refl)) as (text & Htext & Hlines).
  exists text. split; [exact Htext|]. rewrite Hlines. reflexivity.
Defined.

Lemma unhex_hex_digit k : k < 16 → unhex_digit (hex_digit k) = Some k.
Proof.
  intros H. destruct k as [|p]; [reflexivity|].
  do 4 (destruct p as [p|p|]; try reflexivity); lia.
Qed.

Lemma hex4_sum n :
  n < 65536 →
  n / 4096 mod 16 * 4096 + n / 256 mod 16 * 256 + n / 16 mod 16 * 16 + n mod 16 = n.
Proof.
  intros H.
  replace (n / 4096) with (n / 16 / 16 / 16) by (rewrite !N.Div0.div_div; reflexivity).
  replace (n / 256) with (n / 16 / 16) by (rewrite !N.Div0.div_div; reflexivity).
  assert (E0 := N.div_mod n 16). assert (B0 : n mod 16 < 16) by (apply N.mod_lt; lia).
  assert (E1 := N.div_mod (n / 16) 16).
  assert (B1 : (n / 16) mod 16 < 16) by (apply N.mod_lt; lia).
  assert (E2 := N.div_mod (n / 16 / 16) 16).
  assert (B2 : (n / 16 / 16) mod 16 < 16) by (apply N.mod_lt; lia).
  revert E0 B0 E1 B1 E2 B2.
  generalize (n mod 16) ((n / 16) mod 16) ((n / 16 / 16) mod 16).
  generalize (n / 16 / 16 / 16). generalize (n / 16 / 16). generalize (n / 16).
  intros q1 q2 q3 r0 r1 r2 E0 B0 E1 B1 E2 B2.
  rewrite (N.mod_small q3) by lia. lia.
Qed.

Lemma unhex4_hex4 n :
  n < 65536 →
  ∃ h1 h2 h3 h4, hex4 n = [h1; h2; h3; h4] ∧ unhex4 h1 h2 h3 h4 = Some n.
Proof.
  intros H. unfold hex4. do 4 eexists. split; [reflexivity|]. unfold unhex4.
  rewrite !unhex_hex_digit by (apply N.mod_lt; lia). cbn [mbind option_bind].
  by rewrite hex4_sum.
Qed.

Lemma lor_low (a x : N) : N.land a 1023 = 0 → x < 1024 → N.lor a x = a + x.
Proof.
  intros Ha Hx.
  assert (Hland : N.land a x = 0).
  { rewrite <- (N.mod_small x 1024) by done.
    change 1024 with (2 ^ 10). rewrite <- N.land_ones.
    rewrite (N.land_comm x), N.land_assoc. change (N.ones 10) with 1023.
    rewrite Ha. apply N.land_0_l. }
  by rewrite <- N.lxor_lor, <- N.add_nocarry_lxor.
Qed.

(** The surrogate pair of a character above U+FFFF. *)
Lemma surrogates c :
  65536 ≤ c → c < 1114112 →
  let n := c - 65536 in
  let s1 := N.lor 55296 (N.land (N.shiftr n 10) 1023) in
  let s2 := N.lor 56320 (N.land n 1023) in
  55296 ≤ s1 ≤ 56319 ∧ 56320 ≤ s2 ≤ 57343
  ∧ 65536 + ((s1 - 55296) * 1024 + (s2 - 56320)) = c.
Proof.
  intros Hlo Hhi n s1 s2. subst s1 s2.
  change 1023 with (N.ones 10). rewrite !N.land_ones, N.shiftr_div_pow2.
  change (2 ^ 10) with 1024.
  assert (Hn : n < 1048576) by (subst n; lia).
  assert (Ediv := N.div_mod n 1024).
  assert (Bmod : n mod 1024 < 1024) by (apply N.mod_lt; lia).
  assert (Hq : n / 1024 < 1024).
  { revert Ediv Bmod. generalize (n mod 1024) (n / 1024). intros r q E B. lia. }
  rewrite (N.mod_small (n / 1024)) by done.
  rewrite !lor_low by done.
  assert (Hc : c = 65536 + n) by (subst n; lia).
  revert Ediv Bmod Hq Hc. generalize (n mod 1024) (n / 1024). intros r q E B Hq Hc.
  lia.
Qed.

Lemma read_string_escape c (t : str) :
  is_scalar c →
  json_read_string (json_escape_char c ++ t) = push c (json_read_string t).
Proof.
  intros Hc. unfold json_escape_char.
  destruct (N.eqb_spec c 34) as [->|H34]; [reflexivity|].
  destruct (N.eqb_spec c 92) as [->|H92]; [reflexivity|].
  destruct (N.eqb_spec c 10) as [->|H10]; [reflexivity|].
  destruct (N.eqb_spec c 13) as [->|H13]; [reflexivity|].
  destruct (N.eqb_spec c 9) as [->|H9]; [reflexivity|].
  destruct (N.eqb_spec c 8) as [->|H8]; [reflexivity|].
  destruct (N.eqb_spec c 12) as [->|H12]; [reflexivity|].
  destruct ((32 <=? c) && (c <=? 126)) eqn:Hp.
  { apply andb_true_iff in Hp as [Hlo%N.leb_le Hhi%N.leb_le].
    cbn [app json_read_string].
    rewrite (proj2 (N.eqb_neq c 34)), (proj2 (N.eqb_neq c 92)) by done.
    by rewrite (proj2 (N.ltb_ge c 32)) by done. }
  destruct (N.ltb_spec c 65536) as [Hlt|Hge].
  - destruct (unhex4_hex4 c Hlt) as (h1 & h2 & h3 & h4 & -> & Hun).
    cbn [app json_read_string]. change (92 =? 34) with false.
    change (92 =? 92) with true. change (117 =? 117) with true. cbn match.
    rewrite Hun.
    assert (Hs : (55296 <=? c) && (c <=? 56319) = false).
    { apply andb_false_iff. destruct Hc as [?|[? ?]].
      - left. apply N.leb_gt. lia.
      - right. apply N.leb_gt. lia. }
    by rewrite Hs.
  - assert (Hhi : c < 1114112) by (destruct Hc as [?|[? ?]]; lia).
    destruct (surrogates c Hge Hhi) as (Hs1 & Hs2 & Hsum).
    cbv zeta in Hs1, Hs2, Hsum |- *.
    set (s1 := N.lor 55296 _) in *. set (s2 := N.lor 56320 _) in *.
    destruct (unhex4_hex4 s1 ltac:(lia)) as (h1 & h2 & h3 & h4 & -> & Hun1).
    destruct (unhex4_hex4 s2 ltac:(lia)) as (l1 & l2 & l3 & l4 & -> & Hun2).
    cbn [app json_read_string]. change (92 =? 34) with false.
    change (92 =? 92) with true. change (117 =? 117) with true. cbn match.
    rewrite Hun1.
    rewrite (proj2 (andb_true_iff _ _)) by (rewrite !N.leb_le; lia).
    cbn [andb]. rewrite Hun2.
    rewrite (proj2 (andb_true_iff _ _)) by (rewrite !N.leb_le; lia).
    by rewrite Hsum.
Qed.

Lemma read_string_text (s t : str) :
  Forall is_scalar s →
  json_read_string ((s ≫= json_escape_char) ++ 34 :: t) = Some (s, t).
Proof.
  induction 1 as [|c s Hc _ IH]; [reflexivity|].
  rewrite bind_cons, <- app_assoc, read_string_escape by done. by rewrite IH.
Qed.

Lemma read_value (v : option str) (t : str) :
  Forall is_scalar (default [] v) →
  json_read_value (32 :: json_value v ++ t) = Some (v, t).
Proof.
  intros Hv. destruct v as [s|]; [|reflexivity].
  unfold json_value, json_string, dq. rewrite <- !app_assoc. cbn [app].
  unfold json_read_value. change (drop_while is_json_space (32 :: 34 :: ?x)) with (34 :: x).
  change (34 =? 34) with true. cbn match. by rewrite read_string_text.
Qed.

Lemma read_members_space fuel (t : str) :
  json_read_members fuel (32 :: t) = json_read_members fuel t.
Proof. by destruct fuel. Qed.

Lemma read_member (more : bool) fuel (key : str) (value : option str) (t : str) :
  Forall is_scalar key → Forall is_scalar (default [] value) →
  json_read_members (S fuel)
    (json_string key ++ py ": " ++ json_value value
     ++ (if more then py ", " else py "}") ++ t)
  = if more
    then match json_read_members fuel t with
         | Some (members, rest) => Some ((key, value) :: members, rest)
         | None => None
         end
    else Some ([(key, value)], t).
Proof.
  intros Hk Hv. unfold json_string at 1, dq. rewrite <- !app_assoc.
  change (py ": ") with [58; 32]. cbn [app json_read_members].
  change (drop_while is_json_space (34 :: ?x)) with (34 :: x).
  change (34 =? 34) with true. cbn match. rewrite read_string_text by done.
  change (drop_while is_json_space (58 :: ?x)) with (58 :: x).
  change (58 =? 58) with true. cbn match. rewrite read_value by done.
  destruct more.
  - change (py ", ") with [44; 32]. cbn [app].
    change (drop_while is_json_space (44 :: ?x)) with (44 :: x).
    change (44 =? 125) with false. change (44 =? 44) with true. cbn match.
    by rewrite read_members_space.
  - change (py "}") with [125]. cbn [app].
    change (drop_while is_json_space (125 :: ?x)) with (125 :: x).
    change (125 =? 125) with true. by cbn match.
Qed.

Lemma printable_scalar (s : str) : Forall (λ c, 32 ≤ c ≤ 126) s → Forall is_scalar s.
Proof.
  intros H. eapply Forall_impl; [exact H|]. intros c Hc. cbv beta in Hc.
  unfold is_scalar. lia.
Qed.

Lemma zfill_scalar w n : Forall is_scalar (zfill w (dec n)).
Proof.
  apply Forall_forall. intros c H%zfill_digits. unfold is_scalar. lia.
Qed.

Lemma literal_scalar (s : string) :
  forallb (λ c, (32 <=? c) && (c <=? 126)) (py s) = true →
  Forall is_scalar (py s).
Proof. intros H. by apply printable_scalar, literal_printable. Qed.

Lemma isoformat_scalar t : Forall is_scalar (isoformat t).
Proof.
  unfold isoformat. rewrite !Forall_app.
  repeat split; try apply zfill_scalar; try (by apply literal_scalar).
  destruct (microsecond t =? 0); [constructor|].
  apply Forall_app. split; [by apply literal_scalar|apply zfill_scalar].
Qed.

(** X12. Every record of the JSON export parses back to what was
    exported.  For every entry whose message holds no surrogate code point
    (a decoded text holds none), a JSON reader gets from the record the
    members [level], [message] and, when timestamps are included,
    [timestamp], in this order, with the display name, the message
    character for character ([null] for a missing message) and the ISO
    timestamp; quotes, backslashes, control characters and characters
    outside ASCII in the message come back unchanged. *)
Theorem json_record_round_trip (incl : bool) (entry : LogEntry) :
  Forall is_scalar (default [] (message entry)) →
  json_read_object (format_entry_json incl entry)
  = Some ([(py "level", Some (get_level_name entry));
           (py "message", message entry)]
          ++ if incl then [(py "timestamp", Some (isoformat (timestamp entry)))]
             else []).
Proof.
  intros Hm. unfold format_entry_json, json_read_object.
  change (py "{") with [123]. cbn [app].
  change (drop_while is_json_space (123 :: ?x)) with (123 :: x).
  change (123 =? 123) with true. cbn match.
  assert (Hname : Forall is_scalar (get_level_name entry))
    by apply printable_scalar, level_name_printable.
  assert (Hlevel : Forall is_scalar (py "level")) by (by apply literal_scalar).
  assert (Hmessage : Forall is_scalar (py "message")) by (by apply literal_scalar).
  assert (Htimestamp : Forall is_scalar (py "timestamp")) by (by apply literal_scalar).
  assert (Hfuel : ∃ fuel, length
            (json_string (py "level") ++ py ": " ++ json_string (get_level_name entry)
             ++ py ", " ++ json_string (py "message") ++ py ": "
             ++ json_value (message entry)
             ++ (if incl
                 then py ", " ++ json_string (py "timestamp") ++ py ": "
                      ++ json_string (isoformat (timestamp entry))
                 else [])
             ++ py "}") = S (S (S fuel))).
  { unfold json_string at 1, dq. cbn [app length mbind]. rewrite !length_app.
    cbn [length]. eexists. rewrite <- !Nat.add_succ_comm. cbn [Nat.add]. reflexivity. }
  destruct Hfuel as [fuel ->].
  rewrite (read_member true _ (py "level") (Some (get_level_name entry)) _ Hlevel Hname).
  destruct incl.
  - rewrite <- !app_assoc.
    rewrite (read_member true _ (py "message") (message entry) _ Hmessage Hm).
    pose proof (read_member false fuel (py "timestamp")
                  (Some (isoformat (timestamp entry))) [] Htimestamp
                  (isoformat_scalar _)) as E.
    rewrite app_nil_r in E. cbn [json_value] in E. by rewrite E.
  - cbn [app].
    pose proof (read_member false (S fuel) (py "message") (message entry) []
                  Hmessage Hm) as E.
    rewrite app_nil_r in E. by rewrite E.
Qed.

Lemma json_record_round_trip_witness :
  let entry := LogEntry_init (py "[1] a" ++ [34; 9; 233; 128512] ++ py "b") ts0 None None in
  json_read_object (format_entry_json false entry)
  = Some [(py "level", Some (py "WARN"));
          (py "message", Some (py "a" ++ [34; 9; 233; 128512] ++ py "b"))].
Proof.
  intros entry.
  refine (json_record_round_trip false entry _).
  apply (bool_decide_unpack _). vm_compute. exact I.
Defined.

(** ** What the constructor leaves *)

Lemma take_while_Forall {A} (p : A → bool) (l : list A) :
  Forall (λ x, p x = true) (take_while p l).
Proof.
  induction l as [|x l IH]; simpl; [constructor|].
  destruct (p x) eqn:Hx; by constructor.
Qed.

Lemma take_drop_while {A} (p : A → bool) (l : list A) :
  l = take_while p l ++ drop_while p l.
Proof.
  rewrite <- take_take_while, <- drop_take_while. symmetry. apply take_drop.
Qed.

Lemma strip_decompose (s : str) :
  ∃ pre post, s = pre ++ strip s ++ post
              ∧ Forall (λ c, is_space c = true) pre
              ∧ Forall (λ c, is_space c = true) post.
Proof.
  exists (take_while is_space s),
         (reverse (take_while is_space (reverse (lstrip s)))).
  split; [|split].
  - rewrite (take_drop_while is_space s) at 1. f_equal. fold (lstrip s).
    unfold strip, rstrip. rewrite <- reverse_app.
    rewrite <- take_drop_while. by rewrite reverse_involutive.
  - apply take_while_Forall.
  - apply Forall_reverse, take_while_Forall.
Qed.

Lemma strip_head (s : str) c : head (strip s) = Some c → is_space c = false.
Proof.
  unfold strip. intros H. destruct (lstrip s) as [|x t] eqn:E; [done|].
  assert (Hx : is_space x = false).
  { apply (head_drop_while is_space s). unfold lstrip in E. by rewrite E. }
  destruct (rstrip_cons_keep x t Hx) as [t' Ht]. rewrite Ht in H.
  simpl in H. congruence.
Qed.

Lemma rstrip_last (s : str) c : last (rstrip s) = Some c → is_space c = false.
Proof. unfold rstrip. rewrite last_reverse. apply head_drop_while. Qed.

Lemma strip_last (s : str) c : last (strip s) = Some c → is_space c = false.
Proof. apply rstrip_last. Qed.

Lemma strip_fixed (s : str) :
  (∀ c, head s = Some c → is_space c = false) →
  (∀ c, last s = Some c → is_space c = false) →
  strip s = s.
Proof.
  intros Hh Hl. unfold strip, lstrip. rewrite (drop_while_id is_space s Hh).
  unfold rstrip. rewrite drop_while_id; [apply reverse_involutive|].
  intros c Hc. rewrite head_reverse in Hc. by apply Hl.
Qed.

Lemma strip_idempotent (s : str) : strip (strip s) = strip s.
Proof. apply strip_fixed; [apply strip_head|apply strip_last]. Qed.

Lemma last_suffix {A} (l k : list A) : l `suffix_of` k → l ≠ [] → last l = last k.
Proof.
  intros [pre ->] Hne. rewrite last_app.
  destruct (last l) eqn:E; [done|]. by apply last_None in E.
Qed.

Lemma lstrip_ends (rest : str) c :
  (∀ c, last rest = Some c → is_space c = false) →
  head (lstrip rest) = Some c ∨ last (lstrip rest) = Some c → is_space c = false.
Proof.
  intros Hlast [H|H].
  - by apply (head_drop_while is_space rest).
  - apply Hlast. rewrite <- H. symmetry. apply last_suffix.
    + apply drop_while_suffix.
    + intros E. by rewrite E in H.
Qed.

(** X13. The constructor only trims, and what it builds is stable.  The
    entry's [raw_data] is the input text without the whitespace at its two
    ends: the input is whitespace, then [raw_data], then whitespace, and
    [raw_data] neither starts nor ends with whitespace.  Constructing an entry
    again from its own [raw_data] gives the same entry.  When the input
    holds no line feed, the message too neither starts nor ends with
    whitespace. *)
Theorem constructor_trims (raw : str) (ts : datetime) (lvl msg : option str) :
  let e := LogEntry_init raw ts lvl msg in
  (∃ pre post, raw = pre ++ raw_data e ++ post
               ∧ Forall (λ c, is_space c = true) pre
               ∧ Forall (λ c, is_space c = true) post)
  ∧ (∀ c, head (raw_data e) = Some c ∨ last (raw_data e) = Some c →
          is_space c = false)
  ∧ (∀ lvl' msg', LogEntry_init (raw_data e) ts lvl' msg' = e)
  ∧ (LF ∉ raw →
     ∀ m c, message e = Some m → head m = Some c ∨ last m = Some c →
            is_space c = false).
Proof.
  intros e.
  assert (Hraw : raw_data e = strip raw).
  { subst e. unfold LogEntry_init, _parse_log. cbn [raw_data].
    destruct (re_match level_pattern (strip raw)); [done|].
    by destruct (re_match wm_pattern (strip raw)). }
  assert (Hends : ∀ c, head (strip raw) = Some c ∨ last (strip raw) = Some c →
                       is_space c = false).
  { intros c [H|H]; [by apply (strip_head raw)|by apply (strip_last raw)]. }
  split; [|split; [|split]].
  - rewrite Hraw. apply strip_decompose.
  - by rewrite Hraw.
  - intros lvl' msg'. rewrite Hraw. subst e. unfold LogEntry_init.
    rewrite strip_idempotent. apply parse_ignores_attributes.
  - intros HLF m c Hm Hc. subst e. unfold LogEntry_init in Hm.
    set (self := mkLogEntry (strip raw) ts lvl msg false) in Hm.
    assert (HLF' : LF ∉ strip raw) by (intros H; by apply HLF, strip_elem_of).
    assert (Hrest : ∀ pre rest, strip raw = pre ++ rest →
              ∀ c, last rest = Some c → is_space c = false).
    { intros pre rest E c' Hc'. apply Hends. right. rewrite E, last_app.
      by rewrite Hc'. }
    destruct (marker_cases (raw_data self)) as [Hs|[Hw|[Hs Hw]]].
    + destruct Hs as (d & rest & Hd & Hline). cbn in Hline.
      rewrite (parse_severity self d rest Hd Hline) in Hm. cbn [message] in Hm.
      rewrite first_line_id in Hm.
      * injection Hm as <-. apply (lstrip_ends rest); [|done].
        apply (Hrest [91; d; 93]). exact Hline.
      * apply not_elem_of_lstrip. intros H. apply HLF'. cbn in Hline.
        rewrite Hline, !elem_of_cons. auto.
    + destruct Hw as (rest & Hline). cbn in Hline.
      rewrite (parse_wm self rest Hline) in Hm. cbn [message] in Hm.
      rewrite first_line_id in Hm.
      * injection Hm as <-. apply (lstrip_ends rest); [|done].
        apply (Hrest [42; 119; 109]). exact Hline.
      * apply not_elem_of_lstrip. intros H. apply HLF'. cbn in Hline.
        rewrite Hline, !elem_of_cons. auto.
    + rewrite (parse_generic self Hs Hw) in Hm. cbn in Hm. injection Hm as <-.
      by apply Hends.
Qed.

Lemma constructor_trims_witness :
  let e := LogEntry_init (py "  [2]   link up  ") ts0 None None in
  message e = Some (py "link up")
  ∧ ∀ c, head (py "link up") = Some c ∨ last (py "link up") = Some c →
         is_space c = false.
Proof.
  intros e.
  assert (Hm : message e = Some (py "link up")) by reflexivity.
  split; [exact Hm|]. intros c Hc.
  assert (HLF : LF ∉ py "  [2]   link up  ").
  { apply (bool_decide_unpack _). vm_compute. exact I. }
  exact (proj2 (proj2 (proj2 (constructor_trims (py "  [2]   link up  ") ts0 None None)))
           HLF (py "link up") c Hm Hc).
Defined.

(** ** From the serial reader to the display *)

Lemma read_data_lines_well_formed_lines (buffer data : str) :
  Forall (λ line, LF ∉ line) (read_data_step buffer data).1.
Proof.
  rewrite read_data_step_frame.
  eapply Forall_impl; [apply frame_lines_well_formed, not_elem_of_nil|].
  intros l (_ & H & _). exact H.
Qed.

Lemma constructor_raw_data raw ts lvl msg :
  raw_data (LogEntry_init raw ts lvl msg) = strip raw
  ∧ timestamp (LogEntry_init raw ts lvl msg) = ts.
Proof.
  unfold LogEntry_init, _parse_log. cbn [raw_data timestamp].
  destruct (re_match level_pattern (strip raw)); [done|].
  by destruct (re_match wm_pattern (strip raw)).
Qed.

(** X14. A line from the serial reader takes one line of the display and
    of every saved text.  For every line [read_data] emits, whatever arrived
    on the port, the entry [on_data_received] constructs from it has a
    [raw_data] and a message without line feed, and its display string, with
    or without timestamp, holds no line feed. *)
Theorem received_line_is_one_display_line
    (buffer data line : str) (now : datetime) (show : bool) :
  line ∈ (read_data_step buffer data).1 →
  let entry := LogEntry_init line now None None in
  (LF ∉ raw_data entry)
  ∧ (LF ∉ format_str (message entry))
  ∧ (LF ∉ to_display_string entry show).
Proof.
  intros Hline entry.
  assert (HLF : LF ∉ line).
  { pose proof (read_data_lines_well_formed_lines buffer data) as Hwf.
    rewrite Forall_forall in Hwf. by apply Hwf. }
  assert (Hm : LF ∉ format_str (message entry))
    by (by apply constructed_message_no_lf).
  split; [|split; [done|]].
  - subst entry. destruct (constructor_raw_data line now None None) as [-> _].
    intros H. by apply HLF, strip_elem_of.
  - by apply (display_string_no_lf entry show).
Qed.

Lemma received_line_is_one_display_line_witness :
  let line := py "[2] up" in
  line ∈ (read_data_step (py "[2]") (py " up" ++ [CR; LF] ++ py "[1")).1
  ∧ (LF ∉ to_display_string (LogEntry_init line ts0 None None) true).
Proof.
  intros line.
  assert (Hline : line ∈ (read_data_step (py "[2]") (py " up" ++ [CR; LF] ++ py "[1")).1).
  { apply (bool_decide_unpack _). vm_compute. exact I. }
  split; [exact Hline|].
  exact (proj2 (proj2 (received_line_is_one_display_line _ _ line ts0 true Hline))).
Defined.

(** ** Ceilings that are not positive *)

(** X15. A ceiling that is not positive does not cap the store.  With
    [max_lines = 0] the slice [log_entries[-0:]] is the whole list, so
    [add_log_entry] keeps every entry; with a negative [max_lines] the slice
    starts at index [-max_lines], so each append keeps the appended list
    without its first [-max_lines] entries. *)
Theorem add_log_entry_without_ceiling (self : LogDisplayWidget) (entry : LogEntry) :
  (max_lines self ≤ 0)%Z →
  log_entries (add_log_entry self entry)
  = drop (Z.to_nat (- max_lines self)) (log_entries self ++ [entry])
  ∧ (max_lines self = 0%Z →
     log_entries (add_log_entry self entry) = log_entries self ++ [entry]).
Proof.
  intros Hm.
  assert (H : log_entries (add_log_entry self entry)
              = drop (Z.to_nat (- max_lines self)) (log_entries self ++ [entry])).
  { unfold add_log_entry. rewrite apply_filters_log_entries. cbn [log_entries].
    rewrite (proj2 (Z.ltb_lt _ _)) by (rewrite length_app; simpl; lia).
    unfold slice_from. rewrite (proj2 (Z.ltb_ge _ _)) by lia.
    destruct (Z.min_spec (- max_lines self)
                (Z.of_nat (length (log_entries self ++ [entry])))) as [[_ ->]|[Hle ->]];
      [done|].
    rewrite Nat2Z.id, drop_all. symmetry. apply drop_ge. lia. }
  split; [exact H|]. intros H0. rewrite H, H0. done.
Qed.

Lemma add_log_entry_without_ceiling_witness :
  log_entries (add_log_entry (mkLogDisplayWidget [entry_of "a"; entry_of "b"] []
                                                 (replicate 7 true) 0)
                             (entry_of "c"))
  = [entry_of "a"; entry_of "b"; entry_of "c"].
Proof.
  refine (proj2 (add_log_entry_without_ceiling
                   (mkLogDisplayWidget [entry_of "a"; entry_of "b"] []
                                       (replicate 7 true) 0)
                   (entry_of "c") _) eq_refl).
  cbn. lia.
Defined.
